(** * Trackr: commit de-duplication and append synchronisation

    A shallow embedding of [src/extension.ts]: the ledger loader
    [loadProcessedCommits] with its line parser, and the synchroniser
    [trackGitChange] with its conflict retry, run against an abstract host
    (git, the GitHub contents API, the local disk, the editor). *)

From Stdlib Require Import List NArith Bool Lia String Ascii Arith.
Import ListNotations.

Set Implicit Arguments.

(** ** JavaScript strings

    A JavaScript string is a sequence of UTF-16 code units.  The text that
    [Buffer.from(_, 'base64').toString('utf8')] hands to the program is taken
    as such a sequence; base64 and UTF-8 coding stay on the host's side. *)

Module JsString.

Definition jsstring := list N.

(** An ASCII literal as a JavaScript string. *)
Definition js (s : string) : jsstring :=
  map N_of_ascii (list_ascii_of_string s).
Arguments js : simpl never.

Definition LF : N := 10.
Definition nl : jsstring := [LF].

Definition eqb (a b : jsstring) : bool :=
  if list_eq_dec N.eq_dec a b then true else false.

(** ECMAScript LineTerminator: the code units that [.] refuses. *)
Definition isLineTerminator (c : N) : bool :=
  ((c =? 10) || (c =? 13) || (c =? 8232) || (c =? 8233))%N.

(** ECMAScript WhiteSpace and LineTerminator: what [trim] strips. *)
Definition isTrimmed (c : N) : bool :=
  (isLineTerminator c
   || (c =? 9) || (c =? 11) || (c =? 12) || (c =? 32) || (c =? 160)
   || (c =? 5760) || ((8192 <=? c) && (c <=? 8202))
   || (c =? 8239) || (c =? 8287) || (c =? 12288) || (c =? 65279))%N.

Fixpoint dropWhile (p : N -> bool) (s : jsstring) : jsstring :=
  match s with
  | [] => []
  | c :: s' => if p c then dropWhile p s' else s
  end.

(** [String.prototype.trim]. *)
Definition trim (s : jsstring) : jsstring :=
  rev (dropWhile isTrimmed (rev (dropWhile isTrimmed s))).

(** Truthiness of a string: every string but the empty one. *)
Definition truthy (s : jsstring) : bool :=
  match s with [] => false | _ :: _ => true end.

(** [String.prototype.split] with a one-unit separator. *)
Fixpoint split (sep : N) (s : jsstring) : list jsstring :=
  match s with
  | [] => [[]]
  | c :: s' =>
      if (c =? sep)%N then [] :: split sep s'
      else match split sep s' with
           | [] => [[c]]
           | l :: ls => (c :: l) :: ls
           end
  end.

End JsString.
Import JsString.

(** ** The regular expression of the loader

    [/\[(.*?)\] (.*?):/] is a sequence of literal code units and of two
    capturing groups around a lazy [.*?].  The matcher below is the
    backtracking one of ECMAScript restricted to these two node kinds. *)

Module Regex.

Inductive node : Type :=
| Lit (c : N)        (* a literal code unit *)
| LazyDots.          (* [(.*?)]: capturing, lazy, [.] refuses line terminators *)

(** A lazy group holding [held] (latest unit first) in front of [s]: it
    first offers what it holds to the rest of the pattern [k], and takes
    one more code unit only when that fails. *)
Fixpoint lazyDots {R} (k : jsstring -> jsstring -> option R)
         (s held : jsstring) : option R :=
  match k s (rev held) with
  | Some r => Some r
  | None =>
      match s with
      | x :: s' => if isLineTerminator x then None else lazyDots k s' (x :: held)
      | [] => None
      end
  end.

(** [matchHere p s caps]: match pattern [p] at the start of [s]; [caps]
    holds the groups captured so far, latest first. *)
Fixpoint matchHere (p : list node) (s : jsstring) (caps : list jsstring)
  : option (list jsstring) :=
  match p with
  | [] => Some (rev caps)
  | Lit c :: p' =>
      match s with
      | x :: s' => if (x =? c)%N then matchHere p' s' caps else None
      | [] => None
      end
  | LazyDots :: p' =>
      lazyDots (fun rest group => matchHere p' rest (group :: caps)) s []
  end.

(** [String.prototype.match] with a pattern that has no [g] flag: the
    leftmost start at which the pattern matches.  The result lists the
    captured groups, so that [match[k]] is its element [k - 1]. *)
Fixpoint search (p : list node) (s : jsstring) : option (list jsstring) :=
  match matchHere p s [] with
  | Some r => Some r
  | None =>
      match s with
      | [] => None
      | _ :: s' => search p s'
      end
  end.

(** [/\[(.*?)\] (.*?):/], with 91, 93, 32 and 58 the code units of
    the bracket that opens, the bracket that closes, the space and the
    colon. *)
Definition logLine : list node :=
  [Lit 91; LazyDots; Lit 93; Lit 32; LazyDots; Lit 58].

End Regex.

(** ** The line parser of [loadProcessedCommits] (lines 85 to 91) *)

(** [match ? match[2] : null] *)
Definition hashOfLine (line : jsstring) : option jsstring :=
  match Regex.search Regex.logLine line with
  | Some m => nth_error m 1
  | None => None
  end.

Fixpoint dropNull {A} (l : list (option A)) : list A :=
  match l with
  | [] => []
  | Some a :: l' => a :: dropNull l'
  | None :: l' => dropNull l'
  end.

(** [content.split('\n').filter(line => line.trim()).map(..).filter(hash => hash !== null)] *)
Definition parseCommits (content : jsstring) : list jsstring :=
  dropNull
    (map hashOfLine
       (filter (fun line => truthy (trim line)) (split LF content))).

(** ** Values exchanged with the host *)

(** A thrown value: [error.status] when it is a number, and [error.message]
    when the value is an [Error]. *)
Record JsError : Type := { status : option N; errorMessage : option jsstring }.

Inductive Result (A : Type) : Type :=
| Ok (a : A)
| Err (e : JsError).
Arguments Err {A} e.

(** [log.latest] of [git.log(['-1'])]. *)
Record LatestCommit : Type :=
  { hash : jsstring; message : jsstring; date : jsstring }.

(** The [data] of [repos.getContent]: a file has both properties, a
    directory listing has neither. *)
Record Existing : Type :=
  { content : option jsstring; sha : option jsstring }.

(** What the program asks of its surroundings.  Every call may answer or
    throw, and moves the host from one state to the next.  Repository name
    ('TrackrGitLog'), remote path ('git.trackr.log') and the path of the
    mirror file ([os.homedir()] joined with 'git.trackr.log') are constants
    of the source and left out of the signatures. *)
Class Host (E : Type) : Type := {
  workspace_workspaceFolders : E -> option (list jsstring);
  git_checkIsRepo : jsstring -> E -> Result bool * E;
  git_log : jsstring -> E -> Result (option LatestCommit) * E;
  users_getAuthenticated : E -> Result jsstring * E;
  repos_getContent : jsstring -> E -> Result Existing * E;
  fs_writeFileSync : jsstring -> E -> Result unit * E;
  repos_createOrUpdateFileContents :
    jsstring -> jsstring -> jsstring -> option jsstring -> E -> Result unit * E;
  workspaceState_update : list jsstring -> E -> Result unit * E
}.

(** What an observer of a run sees: each call with its answer, and the
    messages the program prints or shows. *)
Inductive Event : Type :=
| CheckIsRepo (path : jsstring) (r : Result bool)
| GitLog (path : jsstring) (r : Result (option LatestCommit))
| GetAuthenticated (r : Result jsstring)
| GetContent (owner : jsstring) (r : Result Existing)
| WriteFileSync (data : jsstring) (r : Result unit)
| CreateOrUpdate (owner msg data : jsstring) (expected : option jsstring)
    (r : Result unit)
| WorkspaceStateUpdate (value : list jsstring) (r : Result unit)
| ShowInformationMessage (text : jsstring)
| ShowErrorMessage (text : jsstring)
| ConsoleLog (text : jsstring)
| ConsoleError (text : jsstring) (e : JsError).

(** ** [Set<string>]: insertion-ordered, without duplicates *)

Module JsSet.

Definition t := list jsstring.

Definition empty : t := [].

Definition has (h : jsstring) (s : t) : bool := existsb (JsString.eqb h) s.

Definition add (h : jsstring) (s : t) : t := if has h s then s else s ++ [h].

(** [commits.forEach(hash => s.add(hash))] *)
Definition addAll (hs : list jsstring) (s : t) : t :=
  fold_left (fun acc h => add h acc) hs s.

(** [Array.from(s)] *)
Definition toArray (s : t) : list jsstring := s.

End JsSet.

(** ** The program state and its monad *)

Section Program.

Context {E : Type}.

(** The module-level [processedCommits], the host, and what was observed
    so far (oldest first). *)
Record World : Type :=
  { processedCommits : JsSet.t; host : E; trace : list Event }.

(** A computation returns, throws, or is cut where the budget of calls
    that the model follows ran out (with the world reached there). *)
Inductive Outcome (A : Type) : Type :=
| Return (a : A) (w : World)
| Throw (e : JsError) (w : World)
| OutOfFuel (w : World).
Arguments Return {A} a w.
Arguments Throw {A} e w.
Arguments OutOfFuel {A} w.

Definition M (A : Type) : Type := World -> Outcome A.

Definition ret {A} (a : A) : M A := fun w => Return a w.

Definition throw {A} (e : JsError) : M A := fun w => Throw e w.

Definition bind {A B} (m : M A) (k : A -> M B) : M B :=
  fun w =>
    match m w with
    | Return a w' => k a w'
    | Throw e w' => Throw e w'
    | OutOfFuel w' => OutOfFuel w'
    end.

(** [try { m } catch (error) { handler error }] *)
Definition tryCatch {A} (m : M A) (handler : JsError -> M A) : M A :=
  fun w =>
    match m w with
    | Return a w' => Return a w'
    | Throw e w' => handler e w'
    | OutOfFuel w' => OutOfFuel w'
    end.

Definition observe (ev : Event) (w : World) : World :=
  {| processedCommits := processedCommits w;
     host := host w;
     trace := trace w ++ [ev] |}.

(** A call to the host: the answer is observed, then returned or thrown. *)
Definition call {A} (f : E -> Result A * E) (ev : Result A -> Event) : M A :=
  fun w =>
    let (r, e') := f (host w) in
    let w' := observe (ev r)
                {| processedCommits := processedCommits w;
                   host := e';
                   trace := trace w |} in
    match r with
    | Ok a => Return a w'
    | Err e => Throw e w'
    end.

Definition emit (ev : Event) : M unit := fun w => Return tt (observe ev w).

Definition getProcessed : M JsSet.t := fun w => Return (processedCommits w) w.

Definition setProcessed (s : JsSet.t) : M unit :=
  fun w => Return tt {| processedCommits := s; host := host w; trace := trace w |}.

Definition getHost : M E := fun w => Return (host w) w.

End Program.

Arguments World E : clear implicits.
Arguments Outcome E A : clear implicits.
Arguments M E A : clear implicits.
Arguments Return {E A} a w.
Arguments Throw {E A} e w.
Arguments OutOfFuel {E A} w.

Declare Scope prog_scope.
Delimit Scope prog_scope with prog.
Notation "x <- m ;; k" := (bind m (fun x => k))
  (at level 100, m at next level, right associativity) : prog_scope.
Notation "m ;;; k" := (bind m (fun _ => k))
  (at level 100, right associativity) : prog_scope.
Open Scope prog_scope.

(** ** The two procedures *)

Section Procedures.

Context {E : Type} `{Host E}.

Definition is404 (error : JsError) : bool :=
  match status error with Some s => (s =? 404)%N | None => false end.

Definition is409 (error : JsError) : bool :=
  match status error with Some s => (s =? 409)%N | None => false end.

(** [loadProcessedCommits] (lines 74 to 100). *)
Definition loadProcessedCommits : M E unit :=
  tryCatch
    (user <- call users_getAuthenticated GetAuthenticated ;;
     existing <- call (repos_getContent user) (GetContent user) ;;
     match content existing with
     | Some text =>
         let commits := parseCommits text in
         s <- getProcessed ;;
         setProcessed (JsSet.addAll commits s)
     | None => ret tt
     end)
    (fun error =>
       if is404 error then ret tt
       else emit (ConsoleError (js "Error loading processed commits:") error)).

(** The template literal of line 127. *)
Definition logEntryOf (c : LatestCommit) : jsstring :=
  js "[" ++ date c ++ js "] " ++ hash c ++ js ": " ++ message c ++ nl.

(** [sha ? 'Update git.trackr.log' : 'Create git.trackr.log'] *)
Definition commitMessage (sha : option jsstring) : jsstring :=
  match sha with
  | Some (_ :: _) => js "Update git.trackr.log"
  | _ => js "Create git.trackr.log"
  end.

(** Lines 135 to 155: the remote text and its version tag. *)
Definition fetchExisting (user : jsstring) : M E (jsstring * option jsstring) :=
  tryCatch
    (existing <- call (repos_getContent user) (GetContent user) ;;
     match content existing, sha existing with
     | Some text, Some tag => ret (text, Some tag)
     | _, _ => ret ([], None)
     end)
    (fun error => if is404 error then ret ([], None) else throw error).

(** The body of [trackGitChange] (lines 102 to 189); [self] stands for the
    call of the procedure to itself at line 179. *)
Definition trackGitChangeBody (self : M E unit) : M E unit :=
  tryCatch
    (e <- getHost ;;
     match workspace_workspaceFolders e with
     | None | Some [] => ret tt
     | Some (currentWorkspace :: _) =>
         isRepo <- call (git_checkIsRepo currentWorkspace)
                        (CheckIsRepo currentWorkspace) ;;
         if negb isRepo then ret tt else
         latest <- call (git_log currentWorkspace) (GitLog currentWorkspace) ;;
         match latest with
         | None => ret tt
         | Some c =>
             processed <- getProcessed ;;
             if JsSet.has (hash c) processed then ret tt else
             let logEntry := logEntryOf c in
             user <- call users_getAuthenticated GetAuthenticated ;;
             tryCatch
               (found <- fetchExisting user ;;
                let text := fst found ++ logEntry in
                let tag := snd found in
                call (fs_writeFileSync text) (WriteFileSync text) ;;;
                call (repos_createOrUpdateFileContents
                        user (commitMessage tag) text tag)
                     (CreateOrUpdate user (commitMessage tag) text tag) ;;;
                processed' <- getProcessed ;;
                setProcessed (JsSet.add (hash c) processed') ;;;
                persisted <- getProcessed ;;
                call (workspaceState_update (JsSet.toArray persisted))
                     (WorkspaceStateUpdate (JsSet.toArray persisted)) ;;;
                emit (ShowInformationMessage
                        (js "Tracked commit: " ++ message c)))
               (fun error =>
                  if is409 error then
                    emit (ConsoleLog (js "Conflict detected, retrying...")) ;;;
                    self
                  else throw error)
         end
     end)
    (fun error =>
       emit (ConsoleError (js "Error tracking git change:") error) ;;;
       emit (ShowErrorMessage
               (js "Failed to track git change: " ++
                match errorMessage error with
                | Some m => m
                | None => js "Unknown error occurred"
                end))).

(** [trackGitChange]: the source has no bound on the depth of its calls
    to itself; [fuel] is the depth that the model follows. *)
Fixpoint trackGitChange (fuel : nat) : M E unit :=
  match fuel with
  | O => fun w => OutOfFuel w
  | S fuel' => trackGitChangeBody (trackGitChange fuel')
  end.

End Procedures.

(** ** What a run shows

    The notions in which the properties of the two procedures are stated:
    how a ledger grows, what the program takes from a fetch, and what the
    events of a run say about its writes. *)

Definition noTerminator (g : jsstring) : Prop :=
  forall c, In c g -> isLineTerminator c = false.

Definition extends (s s' : JsSet.t) : Prop := exists more, s' = s ++ more.

(** What the program takes from an answer of [repos.getContent]: the
    text and the version tag of a file, nothing from anything else. *)
Definition basis (r : Result Existing) : jsstring * option jsstring :=
  match r with
  | Ok existing =>
      match content existing, sha existing with
      | Some text, Some tag => (text, Some tag)
      | _, _ => ([], None)
      end
  | Err _ => ([], None)
  end.

(** The answers after which the program goes on to write. *)
Definition fetched (r : Result Existing) : Prop :=
  match r with
  | Ok _ => True
  | Err e => is404 e = true
  end.

Definition conflictLog : Event := ConsoleLog (js "Conflict detected, retrying...").

(** What the outer [catch] shows of an error. *)
Definition fatal (e : JsError) : list Event :=
  [ConsoleError (js "Error tracking git change:") e;
   ShowErrorMessage
     (js "Failed to track git change: " ++
      match errorMessage e with
      | Some m => m
      | None => js "Unknown error occurred"
      end)].

(** The calls of an attempt up to the answer [r4] of [repos.getContent]. *)
Definition upToFetch (p : jsstring) (c : LatestCommit) (o : jsstring)
           (r4 : Result Existing) : list Event :=
  [CheckIsRepo p (Ok true); GitLog p (Ok (Some c));
   GetAuthenticated (Ok o); GetContent o r4].

(** ... and up to the answer [r6] of the remote write. *)
Definition upToPut (p : jsstring) (c : LatestCommit) (o : jsstring)
           (r4 : Result Existing) (r6 : Result unit) : list Event :=
  upToFetch p c o r4 ++
  [WriteFileSync (fst (basis r4) ++ logEntryOf c) (Ok tt);
   CreateOrUpdate o (commitMessage (snd (basis r4)))
     (fst (basis r4) ++ logEntryOf c) (snd (basis r4)) r6].

Inductive Verdict : Type := Stop | Again.

(** What one attempt can look like from outside: the events it adds, whether
    it asks for another attempt, and the ledger it leaves. *)
Inductive Shape (s : JsSet.t) : list Event -> Verdict -> JsSet.t -> Prop :=
| sh_idle :
    Shape s [] Stop s
| sh_check_err p e :
    Shape s (CheckIsRepo p (Err e) :: fatal e) Stop s
| sh_not_repo p :
    Shape s [CheckIsRepo p (Ok false)] Stop s
| sh_log_err p e :
    Shape s ([CheckIsRepo p (Ok true); GitLog p (Err e)] ++ fatal e) Stop s
| sh_no_commit p :
    Shape s [CheckIsRepo p (Ok true); GitLog p (Ok None)] Stop s
| sh_known p c :
    JsSet.has (hash c) s = true ->
    Shape s [CheckIsRepo p (Ok true); GitLog p (Ok (Some c))] Stop s
| sh_auth_err p c e :
    JsSet.has (hash c) s = false ->
    Shape s ([CheckIsRepo p (Ok true); GitLog p (Ok (Some c));
              GetAuthenticated (Err e)] ++ fatal e) Stop s
| sh_fetch_err p c o e :
    JsSet.has (hash c) s = false -> is404 e = false -> is409 e = false ->
    Shape s (upToFetch p c o (Err e) ++ fatal e) Stop s
| sh_fetch_conflict p c o e :
    JsSet.has (hash c) s = false -> is404 e = false -> is409 e = true ->
    Shape s (upToFetch p c o (Err e) ++ [conflictLog]) Again s
| sh_mirror_err p c o r4 e :
    JsSet.has (hash c) s = false -> fetched r4 -> is409 e = false ->
    Shape s (upToFetch p c o r4 ++
             WriteFileSync (fst (basis r4) ++ logEntryOf c) (Err e) :: fatal e)
          Stop s
| sh_mirror_conflict p c o r4 e :
    JsSet.has (hash c) s = false -> fetched r4 -> is409 e = true ->
    Shape s (upToFetch p c o r4 ++
             [WriteFileSync (fst (basis r4) ++ logEntryOf c) (Err e); conflictLog])
          Again s
| sh_put_err p c o r4 e :
    JsSet.has (hash c) s = false -> fetched r4 -> is409 e = false ->
    Shape s (upToPut p c o r4 (Err e) ++ fatal e) Stop s
| sh_put_conflict p c o r4 e :
    JsSet.has (hash c) s = false -> fetched r4 -> is409 e = true ->
    Shape s (upToPut p c o r4 (Err e) ++ [conflictLog]) Again s
| sh_persist_err p c o r4 e :
    JsSet.has (hash c) s = false -> fetched r4 -> is409 e = false ->
    Shape s (upToPut p c o r4 (Ok tt) ++
             WorkspaceStateUpdate (JsSet.add (hash c) s) (Err e) :: fatal e)
          Stop (JsSet.add (hash c) s)
| sh_persist_conflict p c o r4 e :
    JsSet.has (hash c) s = false -> fetched r4 -> is409 e = true ->
    Shape s (upToPut p c o r4 (Ok tt) ++
             [WorkspaceStateUpdate (JsSet.add (hash c) s) (Err e); conflictLog])
          Again (JsSet.add (hash c) s)
| sh_tracked p c o r4 :
    JsSet.has (hash c) s = false -> fetched r4 ->
    Shape s (upToPut p c o r4 (Ok tt) ++
             [WorkspaceStateUpdate (JsSet.add (hash c) s) (Ok tt);
              ShowInformationMessage (js "Tracked commit: " ++ message c)])
          Stop (JsSet.add (hash c) s).

(** A run under some budget: attempts that ask for another one, and then
    either an attempt that stops (the run has returned, verdict [Stop]) or
    the end of the budget (the run is cut, verdict [Again]).  The index
    counts the retries. *)
Inductive Shapes : Verdict -> nat -> JsSet.t -> list Event -> JsSet.t -> Prop :=
| run_cut s :
    Shapes Again 0 s [] s
| run_stop s new s' :
    Shape s new Stop s' -> Shapes Stop 0 s new s'
| run_again v n s new s1 new' s' :
    Shape s new Again s1 -> Shapes v n s1 new' s' ->
    Shapes v (S n) s (new ++ new') s'.

(** The mirror file is written right after the fetch, with the fetched
    text followed by the entry of the commit read in the same attempt. *)
Definition mirrorAfterFetch (new : list Event) : Prop :=
  forall pre d r post,
    new = pre ++ WriteFileSync d r :: post ->
    exists pre' p c o r4,
      pre = pre' ++ [GitLog p (Ok (Some c)); GetAuthenticated (Ok o);
                     GetContent o r4] /\
      fetched r4 /\ d = fst (basis r4) ++ logEntryOf c.

(** ... and every fetch that is done is followed by a write of the mirror
    file. *)
Definition mirrorFollowsFetch (new : list Event) : Prop :=
  forall pre o r4 post,
    new = pre ++ GetContent o r4 :: post -> fetched r4 ->
    exists pre' p c r5 post',
      pre = pre' ++ [GitLog p (Ok (Some c)); GetAuthenticated (Ok o)] /\
      post = WriteFileSync (fst (basis r4) ++ logEntryOf c) r5 :: post'.

(** After a fetch answered with 404 the text is the entry alone, and the
    remote write that follows carries the message of a creation and no
    expected version tag; when it is accepted, the hash is in the ledger
    [s'] of the end. *)
Definition createsWhenNotFound (new : list Event) (s' : JsSet.t) : Prop :=
  forall pre o e post,
    new = pre ++ GetContent o (Err e) :: post -> is404 e = true ->
    exists pre' p c r5 post',
      pre = pre' ++ [GitLog p (Ok (Some c)); GetAuthenticated (Ok o)] /\
      post = WriteFileSync (logEntryOf c) r5 :: post' /\
      (r5 = Ok tt ->
       exists r6 post'',
         post' = CreateOrUpdate o (js "Create git.trackr.log") (logEntryOf c)
                   None r6 :: post'' /\
         (r6 = Ok tt -> In (hash c) s')).

(** The remote write comes right after the mirror was written, with the
    same text, and expects the version tag that the fetch returned. *)
Definition writesFromFetch (new : list Event) : Prop :=
  forall pre o m d t r post,
    new = pre ++ CreateOrUpdate o m d t r :: post ->
    exists pre' p c r4,
      pre = pre' ++ [GitLog p (Ok (Some c)); GetAuthenticated (Ok o);
                     GetContent o r4; WriteFileSync d (Ok tt)] /\
      fetched r4 /\
      d = fst (basis r4) ++ logEntryOf c /\
      t = snd (basis r4) /\
      m = commitMessage t.

(** An attempt starts by asking git, if it asks anything. *)
Definition startsAtTop (new : list Event) : Prop :=
  new = [] \/ exists p r rest, new = CheckIsRepo p r :: rest.

(** A hash enters the ledger only in a run in which the remote store
    accepted a text that ends with the entry of a commit of that hash. *)
Definition recordedAfterWrite (s : JsSet.t) (new : list Event) (s' : JsSet.t)
  : Prop :=
  forall h, In h s' -> ~ In h s ->
    exists pre o m c base t post,
      new = pre ++ CreateOrUpdate o m (base ++ logEntryOf c) t (Ok tt) :: post /\
      hash c = h.

(** A remote write that fails with a conflict is followed by the log line
    and, at once, by a new attempt from the top. *)
Definition retriedWrite (new : list Event) : Prop :=
  forall pre o m d t e post,
    new = pre ++ CreateOrUpdate o m d t (Err e) :: post ->
    is409 e = true ->
    exists post', post = conflictLog :: post' /\ startsAtTop post'.

(** After every accepted remote write the program hands the ledger, with
    the new hash in it, to the editor's workspace state. *)
Definition persistedAfterWrite (s : JsSet.t) (new : list Event) (s' : JsSet.t)
  : Prop :=
  forall pre o m d t post,
    new = pre ++ CreateOrUpdate o m d t (Ok tt) :: post ->
    exists c base v r7 post',
      d = base ++ logEntryOf c /\
      post = WorkspaceStateUpdate (JsSet.toArray v) r7 :: post' /\
      In (hash c) v /\ extends s v /\ extends v s'.

Definition isRetryLog (ev : Event) : bool :=
  match ev with ConsoleLog _ => true | _ => false end.

(** An answer with status 409 to one of the calls of the inner [try]. *)
Definition conflictAnswer (ev : Event) : bool :=
  match ev with
  | GetContent _ (Err e) | WriteFileSync _ (Err e)
  | CreateOrUpdate _ _ _ _ (Err e) | WorkspaceStateUpdate _ (Err e) => is409 e
  | _ => false
  end.

Definition count (f : Event -> bool) (l : list Event) : nat :=
  List.length (filter f l).

Definition retriesOf (v : Verdict) : nat :=
  match v with Stop => 0 | Again => 1 end.

Section Verdicts.

Context {E : Type}.

Definition verdictOf (R : Outcome E unit) : option (Verdict * World E) :=
  match R with
  | Return _ w1 => Some (Stop, w1)
  | OutOfFuel w1 => Some (Again, w1)
  | Throw _ _ => None
  end.

(** The world in which a run stands, returned or cut by the budget. *)
Definition ends (R : Outcome E unit) (w' : World E) : Prop :=
  R = Return tt w' \/ R = OutOfFuel w'.

End Verdicts.

Section Reruns.

Context {E : Type} `{Host E}.

(** In the run from [w] under the budget [fuel], which stands in [w'],
    the attempt that meets the failure [ev] (after [pre], before [post])
    logs the conflict and calls the procedure again: a budget of that many
    calls is cut right there, in a world [w1], and under every larger
    budget the rest of the run is [trackGitChange] itself, the whole
    procedure, run from [w1]; such is the rest of this run. *)
Definition rerunsAfter (fuel : nat) (w w' : World E)
           (pre : list Event) (ev : Event) (post : list Event) : Prop :=
  exists k w1 post',
    k < fuel /\
    trackGitChange (S k) w = OutOfFuel w1 /\
    trace w1 = trace w ++ pre ++ [ev; conflictLog] /\
    post = conflictLog :: post' /\
    (forall n, trackGitChange (S k + n) w = trackGitChange n w1) /\
    ends (trackGitChange (fuel - S k) w1) w' /\
    trace w' = trace w1 ++ post'.

End Reruns.

(** ** An in-memory host

    The surroundings of the program, for the scenarios: a remote store that
    holds at most one file, a disk with the mirror file, the editor's
    workspace state.  A script fixes what happens around the program as time
    (the number of calls served) passes: where HEAD points, which call
    fails, and what another writer appends to the remote file. *)

Module Fake.

Record Script : Type := {
  folders : option (list jsstring);
  isRepo : bool;
  head : nat -> option LatestCommit;
  login : jsstring;
  fault : nat -> option JsError;
  rival : nat -> option jsstring
}.

Record State : Type := {
  clock : nat;
  remote : option jsstring;
  mirror : option jsstring;
  stored : option (list jsstring)
}.

(** The version tag of a text: a function of the text alone, as a blob
    hash is, and never empty. *)
Definition tagOf (text : jsstring) : jsstring := js "blob " ++ text.

Definition notFound : JsError :=
  {| status := Some 404%N; errorMessage := Some (js "Not Found") |}.

Definition conflict : JsError :=
  {| status := Some 409%N; errorMessage := Some (js "Conflict") |}.

Definition sameTag (a b : option jsstring) : bool :=
  match a, b with
  | None, None => true
  | Some x, Some y => JsString.eqb x y
  | _, _ => false
  end.

Section WithScript.

Variable sc : Script.

(** Time passes: the other writer, if due, appends before the call. *)
Definition arrive (f : State) : State :=
  {| clock := S (clock f);
     remote := match rival sc (clock f) with
               | Some text =>
                   Some (match remote f with Some old => old | None => [] end
                         ++ text)
               | None => remote f
               end;
     mirror := mirror f;
     stored := stored f |}.

Definition serve {A} (honest : State -> Result A * State) (f : State)
  : Result A * State :=
  match fault sc (clock f) with
  | Some e => (Err e, arrive f)
  | None => honest (arrive f)
  end.

(** Modelled from the spec: the Remote Log Store is a service outside the
    repository; [getFile(path)] answers the content and its version tag, or
    NotFound (HTTP 404) when the file is absent. *)
Definition getFile (f : State) : Result Existing * State :=
  match remote f with
  | Some text => (Ok {| content := Some text; sha := Some (tagOf text) |}, f)
  | None => (Err notFound, f)
  end.

(** Modelled from the spec: the conditional write of the Remote Log Store,
    which answers Conflict (HTTP 409) whenever the supplied version tag does
    not match the current state, and stores the text otherwise. *)
Definition putFile (text : jsstring) (expected : option jsstring) (f : State)
  : Result unit * State :=
  if sameTag expected (option_map tagOf (remote f)) then
    (Ok tt, {| clock := clock f; remote := Some text;
               mirror := mirror f; stored := stored f |})
  else (Err conflict, f).

Definition writeMirror (text : jsstring) (f : State) : Result unit * State :=
  (Ok tt, {| clock := clock f; remote := remote f;
             mirror := Some text; stored := stored f |}).

Definition store (value : list jsstring) (f : State) : Result unit * State :=
  (Ok tt, {| clock := clock f; remote := remote f;
             mirror := mirror f; stored := Some value |}).

Definition fakeHost : Host State := {|
  workspace_workspaceFolders := fun _ => folders sc;
  git_checkIsRepo := fun _ => serve (fun f => (Ok (isRepo sc), f));
  git_log := fun _ f => serve (fun f' => (Ok (head sc (clock f)), f')) f;
  users_getAuthenticated := serve (fun f => (Ok (login sc), f));
  repos_getContent := fun _ => serve getFile;
  fs_writeFileSync := fun text => serve (writeMirror text);
  repos_createOrUpdateFileContents :=
    fun _ _ text expected => serve (putFile text expected);
  workspaceState_update := fun value => serve (store value)
|}.

Definition load : M State unit := @loadProcessedCommits State fakeHost.

Definition track (fuel : nat) : M State unit :=
  @trackGitChange State fakeHost fuel.

End WithScript.

(** A fresh process in front of an empty remote store. *)
Definition start : World State :=
  {| processedCommits := JsSet.empty;
     host := {| clock := 0; remote := None; mirror := None; stored := None |};
     trace := [] |}.

Definition never {A} : nat -> option A := fun _ => None.

(** One workspace folder, a repository whose HEAD stays at [c], no fault,
    no other writer. *)
Definition calm (c : LatestCommit) : Script :=
  {| folders := Some [js "/work"]; isRepo := true;
     head := fun _ => Some c; login := js "octocat";
     fault := never; rival := never |}.

Definition serverError : JsError :=
  {| status := Some 500%N; errorMessage := Some (js "Internal Server Error") |}.

(** As [calm], but the call at time 5, the remote write of the first
    attempt, fails with status 500. *)
Definition brokenWrite (c : LatestCommit) : Script :=
  {| folders := Some [js "/work"]; isRepo := true;
     head := fun _ => Some c; login := js "octocat";
     fault := fun n => if n =? 5 then Some serverError else None;
     rival := never |}.

(** A line that the remote file holds from an earlier run. *)
Definition earlier : jsstring :=
  js "[2023-12-31T09:00:00Z] 0a0a0a0a: Earlier" ++ nl.

(** A process that has loaded its ledger from a remote file with that
    line. *)
Definition seeded : World State :=
  {| processedCommits := [js "0a0a0a0a"];
     host := {| clock := 0; remote := Some earlier;
                mirror := None; stored := None |};
     trace := [] |}.

(** A line that another writer appends. *)
Definition elsewhere : jsstring :=
  js "[2024-01-01T12:00:00Z] 0badf00d: Elsewhere" ++ nl.

(** Another writer appends just before the call at time 5, the remote
    write of the first attempt; HEAD is at [a] until then and at [b]
    afterwards. *)
Definition overtaken (a b : LatestCommit) : Script :=
  {| folders := Some [js "/work"]; isRepo := true;
     head := fun n => if n <? 6 then Some a else Some b;
     login := js "octocat";
     fault := never;
     rival := fun n => if n =? 5 then Some elsewhere else None |}.

(** Another writer appends before every call. *)
Definition contended (c : LatestCommit) : Script :=
  {| folders := Some [js "/work"]; isRepo := true;
     head := fun _ => Some c; login := js "octocat";
     fault := never;
     rival := fun _ => Some elsewhere |}.

(** The world in which a computation ended. *)
Definition worldOf {A} (R : Outcome State A) : World State :=
  match R with
  | Return _ w | Throw _ w | OutOfFuel w => w
  end.

Definition isRemoteWrite (ev : Event) : bool :=
  match ev with CreateOrUpdate _ _ _ _ _ => true | _ => false end.

End Fake.

(** ** The scenarios *)

(** The commit of the end-to-end scenario, and a later one. *)
Definition deadbeef : LatestCommit :=
  {| hash := js "deadbeef"; message := js "Initial commit";
     date := js "2024-01-01T00:00:00Z" |}.

Definition second : LatestCommit :=
  {| hash := js "cafe0001"; message := js "Second commit";
     date := js "2024-01-02T00:00:00Z" |}.

(** The text of the malformed-tolerance scenario. *)
Definition malformedSample : jsstring :=
  js "not a log line" ++ nl ++ js "[2024] abc123: fix bug" ++ nl.

(** A text of two entries; a bracket opens before the first one, and the
    message of the second looks like an entry itself. *)
Definition twoEntries : jsstring :=
  js "v1 [2024] abc123: fix bug" ++ [10%N]
  ++ js "[2025] def456: [y] z: more" ++ [10%N].

(** The worlds in which the scenarios end. *)
Definition afterCalm : World Fake.State :=
  Fake.worldOf (Fake.track (Fake.calm deadbeef) 1 Fake.start).

Definition afterBrokenWrite : World Fake.State :=
  Fake.worldOf (Fake.track (Fake.brokenWrite deadbeef) 1 Fake.start).

Definition afterOvertaken : World Fake.State :=
  Fake.worldOf (Fake.track (Fake.overtaken deadbeef second) 2 Fake.seeded).

(** A process that has [deadbeef] in its ledger. *)
Definition known : World Fake.State :=
  {| processedCommits := [js "deadbeef"];
     host := host Fake.start;
     trace := [] |}.

(** A fresh process in front of a remote file that holds the sample. *)
Definition sampled : World Fake.State :=
  {| processedCommits := JsSet.empty;
     host := {| Fake.clock := 0; Fake.remote := Some malformedSample;
                Fake.mirror := None; Fake.stored := None |};
     trace := [] |}.

(** ** Reading back what was written *)

(** Whether [s] holds the two code units ["] "] that close a stamp. *)
Fixpoint hasCloser (s : jsstring) : bool :=
  match s with
  | [] => false
  | c :: s' =>
      ((c =? 93)%N && match s' with x :: _ => (x =? 32)%N | [] => false end)
      || hasCloser s'
  end.

Definition plain (s : jsstring) : bool :=
  forallb (fun x => negb (isLineTerminator x)) s.

Definition colonFree (s : jsstring) : bool :=
  forallb (fun x => negb (x =? 58)%N) s.

(** A commit whose entry the pattern of the loader reads back: a date
    without line terminator and without ["] "], a hash without line
    terminator and without colon. *)
Definition legible (c : LatestCommit) : bool :=
  negb (hasCloser (date c)) && plain (date c)
  && plain (hash c) && colonFree (hash c).

(** A text without line feed. *)
Definition oneLine (s : jsstring) : bool :=
  forallb (fun x => negb (x =? LF)%N) s.

(** ** Failures and reports of a run *)

(** Where a call stands in [trackGitChange]: outside the inner [try] of
    lines 131 to 175, or inside it. *)
Inductive Failure : Type :=
| Outer (e : JsError)
| Inner (e : JsError).

(** The error with which a call failed.  A 404 from [repos.getContent] is
    no failure: line 150 takes it for an absent file. *)
Definition failureOf (ev : Event) : option Failure :=
  match ev with
  | CheckIsRepo _ (Err e) | GitLog _ (Err e) | GetAuthenticated (Err e) =>
      Some (Outer e)
  | GetContent _ (Err e) => if is404 e then None else Some (Inner e)
  | WriteFileSync _ (Err e) | CreateOrUpdate _ _ _ _ (Err e)
  | WorkspaceStateUpdate _ (Err e) => Some (Inner e)
  | _ => None
  end.

(** Every failure is followed by its report and nothing else, but for a
    failure with status 409 inside the inner [try], which is followed by
    the log line and a new attempt. *)
Definition failuresReported (new : list Event) : Prop :=
  forall pre ev post, new = pre ++ ev :: post ->
    match failureOf ev with
    | Some (Outer e) => post = fatal e
    | Some (Inner e) =>
        if is409 e
        then exists post', post = conflictLog :: post' /\ startsAtTop post'
        else post = fatal e
    | None => True
    end.

(** An error is shown only as the last thing of a run, right after the
    failure of a call and the line on the console about it. *)
Definition reportFollowsFailure (new : list Event) : Prop :=
  forall pre t post, new = pre ++ ShowErrorMessage t :: post ->
    post = [] /\
    exists pre' ev e,
      pre = pre' ++ [ev; ConsoleError (js "Error tracking git change:") e] /\
      (failureOf ev = Some (Outer e) \/
       failureOf ev = Some (Inner e) /\ is409 e = false) /\
      t = js "Failed to track git change: " ++
          match errorMessage e with
          | Some m => m
          | None => js "Unknown error occurred"
          end.

(** The calls that go beyond the local repository: to GitHub, to the disk
    and to the workspace state. *)
Definition beyondGit (ev : Event) : bool :=
  match ev with
  | GetAuthenticated _ | GetContent _ _ | WriteFileSync _ _
  | CreateOrUpdate _ _ _ _ _ | WorkspaceStateUpdate _ _ => true
  | _ => false
  end.

(** Such a call is made only in an attempt that has read, from a
    repository, a latest commit whose hash the ledger [s] does not hold. *)
Definition afterFreshCommit (s : JsSet.t) (new : list Event) : Prop :=
  forall pre ev post, new = pre ++ ev :: post -> beyondGit ev = true ->
    exists pre' p c mid,
      pre = pre' ++ [CheckIsRepo p (Ok true); GitLog p (Ok (Some c))] ++ mid /\
      forallb beyondGit mid = true /\ ~ In (hash c) s.

(** The commit is announced only as the last thing of a run, right after
    the remote store accepted its entry and the workspace state took the
    ledger [s'] of the end, which holds its hash; and a workspace state
    that took the ledger is followed by the announcement. *)
Definition announcedAfterWrite (new : list Event) (s' : JsSet.t) : Prop :=
  (forall pre t post, new = pre ++ ShowInformationMessage t :: post ->
     post = [] /\
     exists pre' o m c base tag,
       pre = pre' ++ [CreateOrUpdate o m (base ++ logEntryOf c) tag (Ok tt);
                      WorkspaceStateUpdate s' (Ok tt)] /\
       t = js "Tracked commit: " ++ message c /\ In (hash c) s') /\
  (forall pre v post, new = pre ++ WorkspaceStateUpdate v (Ok tt) :: post ->
     v = s' /\
     exists c, post = [ShowInformationMessage (js "Tracked commit: " ++ message c)]).

(** A remote write that the store accepted. *)
Definition accepted (ev : Event) : bool :=
  match ev with
  | CreateOrUpdate _ _ _ _ (Ok _) => true
  | _ => false
  end.

(** The error with which a call of [loadProcessedCommits] failed. *)
Definition loadFailure (ev : Event) : option JsError :=
  match ev with
  | GetAuthenticated (Err e) | GetContent _ (Err e) => Some e
  | _ => None
  end.

Definition loadErrorLog (e : JsError) : Event :=
  ConsoleError (js "Error loading processed commits:") e.

(** ** Connection and activation

    The rest of [src/extension.ts]: [initializeGitHub] (lines 45 to 72),
    [activate] (lines 12 to 43) and the two callbacks that [activate]
    registers. *)

(** What these procedures ask of the host besides.  The module-level
    [octokit] is kept by the host, as the calls that go through it are:
    [new_Octokit] is the assignment of line 48 and [octokit_isSet] the test
    of line 36.  The callbacks and the constants handed to the editor are
    left out of the signatures. *)
Class Editor (E : Type) : Type := {
  authentication_getSession : E -> Result jsstring * E;
  new_Octokit : jsstring -> E -> Result unit * E;
  octokit_isSet : E -> bool;
  repos_get : jsstring -> E -> Result unit * E;
  repos_createForAuthenticatedUser : E -> Result unit * E;
  commands_registerCommand : E -> Result unit * E;
  subscriptions_push : E -> Result unit * E;
  workspace_createFileSystemWatcher : E -> Result unit * E;
  gitWatcher_onDidChange : E -> Result unit * E;
  String_error : JsError -> jsstring
}.

Section Activation.

Context {E : Type} `{Host E} `{Editor E}.

(** A call to the host that the trace does not list: it is followed
    through the state of the host. *)
Definition invoke {A} (f : E -> Result A * E) : M E A :=
  fun w =>
    let (r, e') := f (host w) in
    let w' := {| processedCommits := processedCommits w;
                 host := e';
                 trace := trace w |} in
    match r with
    | Ok a => Return a w'
    | Err e => Throw e w'
    end.

(** [initializeGitHub] (lines 45 to 72).  The [console.error(error)] of
    line 70 has no label. *)
Definition initializeGitHub : M E unit :=
  tryCatch
    (accessToken <- invoke authentication_getSession ;;
     invoke (new_Octokit accessToken) ;;;
     user <- call users_getAuthenticated GetAuthenticated ;;
     tryCatch (invoke (repos_get user))
              (fun _ => invoke repos_createForAuthenticatedUser) ;;;
     loadProcessedCommits ;;;
     emit (ShowInformationMessage
             (js "Trackr: Successfully connected to GitHub!")))
    (fun error =>
       emit (ShowErrorMessage (js "Failed to initialize GitHub connection")) ;;;
       emit (ConsoleError [] error)).

(** The callback of the command 'trackr.start' (lines 22 to 29). *)
Definition startCommand : M E unit :=
  tryCatch
    (initializeGitHub ;;;
     emit (ShowInformationMessage (js "Trackr initialized successfully !")))
    (fun error =>
       emit (ShowErrorMessage
               (js "Trackr initialization failed : " ++ String_error error))).

(** The callback of the watcher on the git directories (lines 35 to 40). *)
Definition onDidChange (fuel : nat) : M E unit :=
  e <- getHost ;;
  (if negb (octokit_isSet e) then initializeGitHub else ret tt) ;;;
  trackGitChange fuel.

(** [activate] (lines 12 to 43). *)
Definition activate : M E unit :=
  tryCatch
    (initializeGitHub ;;;
     emit (ShowInformationMessage (js "Trackr initialized successfully!")))
    (fun error =>
       emit (ShowErrorMessage
               (js "Trackr initialization failed  : " ++ String_error error))) ;;;
  invoke commands_registerCommand ;;;
  invoke subscriptions_push ;;;
  invoke workspace_createFileSystemWatcher ;;;
  invoke gitWatcher_onDidChange ;;;
  initializeGitHub.

End Activation.

(** The two reports of [initializeGitHub]. *)
Definition connected : Event :=
  ShowInformationMessage (js "Trackr: Successfully connected to GitHub!").

Definition notConnected (e : JsError) : list Event :=
  [ShowErrorMessage (js "Failed to initialize GitHub connection");
   ConsoleError [] e].

(** ** An in-memory editor

    The in-memory host of above, with what [activate] needs besides: a
    session that the user grants or refuses, the variable [octokit], and a
    GitHub account that has the repository or not. *)

Module Desk.

Record Setting : Type := {
  script : Fake.Script;
  grant : option jsstring
}.

Record State : Type := {
  inner : Fake.State;
  octokit : option jsstring;
  repo : bool;
  registered : nat
}.

Definition refused : JsError :=
  {| status := None; errorMessage := Some (js "User did not consent to login.") |}.

(** What a call through [octokit] throws while the variable is not set. *)
Definition typeError (member : jsstring) : JsError :=
  {| status := None;
     errorMessage :=
       Some (js "Cannot read properties of undefined (reading '"
             ++ member ++ js "')") |}.

Definition unprocessable : JsError :=
  {| status := Some 422%N;
     errorMessage := Some (js "Repository creation failed.") |}.

Section WithSetting.

Variable st : Setting.

Definition within {A} (f : Fake.State -> Result A * Fake.State) (d : State)
  : Result A * State :=
  let (r, f') := f (inner d) in
  (r, {| inner := f'; octokit := octokit d; repo := repo d;
         registered := registered d |}).

Definition through {A} (member : jsstring)
           (f : State -> Result A * State) (d : State) : Result A * State :=
  match octokit d with
  | Some _ => f d
  | None => (Err (typeError member), d)
  end.

Definition deskHost : Host State := {|
  workspace_workspaceFolders :=
    fun d => @workspace_workspaceFolders _ (Fake.fakeHost (script st)) (inner d);
  git_checkIsRepo :=
    fun p => within (@git_checkIsRepo _ (Fake.fakeHost (script st)) p);
  git_log :=
    fun p => within (@git_log _ (Fake.fakeHost (script st)) p);
  users_getAuthenticated :=
    through (js "users")
      (within (@users_getAuthenticated _ (Fake.fakeHost (script st))));
  repos_getContent :=
    fun o =>
      through (js "repos")
        (within (@repos_getContent _ (Fake.fakeHost (script st)) o));
  fs_writeFileSync :=
    fun text => within (@fs_writeFileSync _ (Fake.fakeHost (script st)) text);
  repos_createOrUpdateFileContents :=
    fun o m text expected =>
      through (js "repos")
        (within (@repos_createOrUpdateFileContents
                   _ (Fake.fakeHost (script st)) o m text expected));
  workspaceState_update :=
    fun value => within (@workspaceState_update _ (Fake.fakeHost (script st)) value)
|}.

Definition register (d : State) : Result unit * State :=
  (Ok tt, {| inner := inner d; octokit := octokit d; repo := repo d;
             registered := S (registered d) |}).

Definition deskEditor : Editor State := {|
  authentication_getSession :=
    fun d => match grant st with
             | Some token => (Ok token, d)
             | None => (Err refused, d)
             end;
  new_Octokit :=
    fun token d =>
      (Ok tt, {| inner := inner d; octokit := Some token; repo := repo d;
                 registered := registered d |});
  octokit_isSet :=
    fun d => match octokit d with Some _ => true | None => false end;
  repos_get :=
    fun _ =>
      through (js "repos")
        (fun d => if repo d then (Ok tt, d) else (Err Fake.notFound, d));
  repos_createForAuthenticatedUser :=
    through (js "repos")
      (fun d => if repo d then (Err unprocessable, d)
                else (Ok tt, {| inner := inner d; octokit := octokit d;
                                repo := true; registered := registered d |}));
  commands_registerCommand := register;
  subscriptions_push := register;
  workspace_createFileSystemWatcher := register;
  gitWatcher_onDidChange := register;
  String_error :=
    fun e => match errorMessage e with
             | Some m => js "Error: " ++ m
             | None => js "[object Object]"
             end
|}.

Definition initialize : M State unit :=
  @initializeGitHub State deskHost deskEditor.

Definition start : M State unit := @activate State deskHost deskEditor.

Definition changed (fuel : nat) : M State unit :=
  @onDidChange State deskHost deskEditor fuel.

End WithSetting.

(** A fresh process: no client yet, nothing registered. *)
Definition fresh (remote : option jsstring) (repo : bool) : World State :=
  {| processedCommits := JsSet.empty;
     host := {| inner := {| Fake.clock := 0; Fake.remote := remote;
                            Fake.mirror := None; Fake.stored := None |};
                octokit := None; repo := repo; registered := 0 |};
     trace := [] |}.

End Desk.

(** Scripts with nothing to track: no folder, a folder that is no
    repository, a repository without commit. *)
Definition noFolder : Fake.Script :=
  {| Fake.folders := None; Fake.isRepo := true;
     Fake.head := Fake.never; Fake.login := js "octocat";
     Fake.fault := Fake.never; Fake.rival := Fake.never |}.

Definition notRepo : Fake.Script :=
  {| Fake.folders := Some [js "/work"]; Fake.isRepo := false;
     Fake.head := Fake.never; Fake.login := js "octocat";
     Fake.fault := Fake.never; Fake.rival := Fake.never |}.

Definition noCommit : Fake.Script :=
  {| Fake.folders := Some [js "/work"]; Fake.isRepo := true;
     Fake.head := Fake.never; Fake.login := js "octocat";
     Fake.fault := Fake.never; Fake.rival := Fake.never |}.

(** The user grants a session, or refuses it. *)
Definition granted (c : LatestCommit) : Desk.Setting :=
  {| Desk.script := Fake.calm c; Desk.grant := Some (js "gho_token") |}.

Definition declined (c : LatestCommit) : Desk.Setting :=
  {| Desk.script := Fake.calm c; Desk.grant := None |}.

(** Another writer appends [x] just before the call at time 5, the remote
    write of the first attempt; HEAD stays at [c]. *)
Definition interrupted (c : LatestCommit) (x : jsstring) : Fake.Script :=
  {| Fake.folders := Some [js "/work"]; Fake.isRepo := true;
     Fake.head := fun _ => Some c; Fake.login := js "octocat";
     Fake.fault := Fake.never;
     Fake.rival := fun n => if n =? 5 then Some x else None |}.

(** A process with the ledger [s] in front of a remote file that holds
    the text [T]. *)
Definition holding (T : jsstring) (s : JsSet.t) : World Fake.State :=
  {| processedCommits := s;
     host := {| Fake.clock := 0; Fake.remote := Some T;
                Fake.mirror := None; Fake.stored := None |};
     trace := [] |}.

(** The process that starts anew where another one has left the host. *)
Definition reborn (w : World Fake.State) : World Fake.State :=
  {| processedCommits := JsSet.empty; host := host w; trace := [] |}.

(** A fresh process in front of a log that holds the entry of [deadbeef]
    between two other lines. *)
Definition logged : World Fake.State :=
  holding (Fake.earlier ++ logEntryOf deadbeef ++ Fake.elsewhere) JsSet.empty.

(** The in-memory host at time [n], with the remote file [remote] and
    nothing on the disk or in the workspace state. *)
Definition idle (n : nat) (remote : option jsstring) : Fake.State :=
  {| Fake.clock := n; Fake.remote := remote;
     Fake.mirror := None; Fake.stored := None |}.

(** * Properties *)

(** ** Strings and sets *)

Lemma eqb_eq (a b : jsstring) : JsString.eqb a b = true <-> a = b.
Proof.
  unfold JsString.eqb. destruct (list_eq_dec N.eq_dec a b); split; congruence.
Qed.

Lemma has_In (h : jsstring) (s : JsSet.t) : JsSet.has h s = true <-> In h s.
Proof.
  unfold JsSet.has. rewrite existsb_exists. split.
  - intros [x [Hx Heq]]. apply eqb_eq in Heq. now subst.
  - intros Hin. exists h. split; [assumption | now apply eqb_eq].
Qed.

Lemma has_false (h : jsstring) (s : JsSet.t) : JsSet.has h s = false <-> ~ In h s.
Proof.
  rewrite <- has_In. destruct (JsSet.has h s); split; congruence.
Qed.

Lemma In_add (x h : jsstring) (s : JsSet.t) :
  In x (JsSet.add h s) <-> x = h \/ In x s.
Proof.
  unfold JsSet.add. destruct (JsSet.has h s) eqn:Hh.
  - apply has_In in Hh. split; [now right | intros [-> | Hx]; assumption].
  - rewrite in_app_iff. simpl. intuition congruence.
Qed.

Lemma add_extends (h : jsstring) (s : JsSet.t) :
  exists more, JsSet.add h s = s ++ more.
Proof.
  unfold JsSet.add. destruct (JsSet.has h s).
  - exists []. now rewrite app_nil_r.
  - now exists [h].
Qed.

Lemma addAll_extends (hs : list jsstring) (s : JsSet.t) :
  exists more, JsSet.addAll hs s = s ++ more.
Proof.
  unfold JsSet.addAll. revert s.
  induction hs as [|h hs IH]; intros s; simpl.
  - exists []. now rewrite app_nil_r.
  - destruct (add_extends h s) as [m1 Hm1]. destruct (IH (JsSet.add h s)) as [m2 Hm2].
    exists (m1 ++ m2). now rewrite Hm2, Hm1, app_assoc.
Qed.

Lemma In_addAll (x : jsstring) (hs : list jsstring) (s : JsSet.t) :
  In x (JsSet.addAll hs s) <-> In x s \/ In x hs.
Proof.
  unfold JsSet.addAll. revert s.
  induction hs as [|h hs IH]; intros s; simpl.
  - tauto.
  - rewrite IH, In_add. intuition congruence.
Qed.

Lemma add_NoDup (h : jsstring) (s : JsSet.t) : NoDup s -> NoDup (JsSet.add h s).
Proof.
  intros Hs. unfold JsSet.add. destruct (JsSet.has h s) eqn:Hh; [assumption|].
  apply has_false in Hh. apply NoDup_app; [assumption | repeat constructor; simpl; tauto |].
  intros a Ha [<- | []]. contradiction.
Qed.

Lemma addAll_NoDup (hs : list jsstring) (s : JsSet.t) :
  NoDup s -> NoDup (JsSet.addAll hs s).
Proof.
  unfold JsSet.addAll. revert s.
  induction hs as [|h hs IH]; intros s Hs; simpl; [assumption|].
  apply IH. now apply add_NoDup.
Qed.

(** ** The matcher *)

(** A lazy group stops at the first split that the rest of the pattern
    accepts. *)
Lemma lazyDots_sound {R} (k : jsstring -> jsstring -> option R) :
  forall s held r,
    Regex.lazyDots k s held = Some r ->
    exists g rest,
      s = g ++ rest /\ noTerminator g /\ k rest (rev held ++ g) = Some r /\
      (forall g1 c g2, g = g1 ++ c :: g2 ->
                       k (c :: g2 ++ rest) (rev held ++ g1) = None).
Proof.
  induction s as [|x s IH]; intros held r; simpl.
  - destruct (k [] (rev held)) eqn:Hk; [|discriminate].
    intros [= <-]. exists [], []. rewrite (app_nil_r (rev held)).
    split; [reflexivity|]. split; [intros c []|]. split; [assumption|].
    intros [|] ? ? [=].
  - destruct (k (x :: s) (rev held)) eqn:Hk.
    + intros [= <-]. exists [], (x :: s). rewrite (app_nil_r (rev held)).
      split; [reflexivity|]. split; [intros c []|]. split; [assumption|].
      intros [|] ? ? [=].
    + destruct (isLineTerminator x) eqn:Hx; [discriminate|].
      intros Hl. apply IH in Hl as (g & rest & -> & Hg & Hr & Hmin).
      simpl in Hr, Hmin. rewrite <- app_assoc in Hr. simpl in Hr.
      exists (x :: g), rest. repeat split; try assumption.
      * intros c [<- | Hc]; [assumption | now apply Hg].
      * intros [|y g1] c g2 [= -> ->].
        -- now rewrite app_nil_r.
        -- specialize (Hmin g1 c g2 eq_refl).
           now rewrite <- app_assoc in Hmin.
Qed.

(** Conversely, a split that the rest of the pattern accepts makes the
    group succeed (at that split or an earlier one). *)
Lemma lazyDots_complete {R} (k : jsstring -> jsstring -> option R) :
  forall g rest held,
    noTerminator g -> k rest (rev held ++ g) <> None ->
    Regex.lazyDots k (g ++ rest) held <> None.
Proof.
  induction g as [|x g IH]; intros rest held Hg Hk.
  - rewrite app_nil_r in Hk. simpl.
    destruct rest; simpl; destruct (k _ (rev held)); congruence.
  - simpl. destruct (k (x :: g ++ rest) (rev held)); [congruence|].
    rewrite (Hg x (or_introl eq_refl)).
    apply IH.
    + intros c Hc. apply Hg. now right.
    + simpl. now rewrite <- app_assoc.
Qed.

(** What a match of [/\[(.*?)\] (.*?):/] at the start of [s] looks like. *)
Lemma matchHere_logLine_sound (s : jsstring) (m : list jsstring) :
  Regex.matchHere Regex.logLine s [] = Some m ->
  exists g1 g2 post,
    m = [g1; g2] /\
    s = js "[" ++ g1 ++ js "] " ++ g2 ++ js ":" ++ post /\
    noTerminator g1 /\ noTerminator g2 /\ ~ In 58%N g2.
Proof.
  unfold Regex.logLine. simpl.
  destruct s as [|x s]; [discriminate|].
  destruct (N.eqb_spec x 91); [subst x | discriminate].
  intros Hl. apply lazyDots_sound in Hl as (g1 & rest & -> & Hg1 & Hk & _).
  simpl in Hk.
  destruct rest as [|y rest]; [discriminate|].
  destruct (N.eqb_spec y 93); [subst y | discriminate].
  destruct rest as [|z rest]; [discriminate|].
  destruct (N.eqb_spec z 32); [subst z | discriminate].
  apply lazyDots_sound in Hk as (g2 & rest' & -> & Hg2 & Hk & Hmin).
  simpl in Hk.
  destruct rest' as [|u post]; [discriminate|].
  destruct (N.eqb_spec u 58); [subst u | discriminate].
  injection Hk as <-.
  exists g1, g2, post. repeat split; try assumption.
  intros Hin. apply in_split in Hin as (a & b & ->).
  specialize (Hmin a 58%N b eq_refl). simpl in Hmin. discriminate.
Qed.

Lemma matchHere_logLine_complete (g1 g2 post : jsstring) :
  noTerminator g1 -> noTerminator g2 ->
  Regex.matchHere Regex.logLine
    (js "[" ++ g1 ++ js "] " ++ g2 ++ js ":" ++ post) [] <> None.
Proof.
  intros H1 H2. unfold Regex.logLine. simpl.
  apply lazyDots_complete; [assumption|]. simpl.
  apply lazyDots_complete; [assumption|]. simpl. discriminate.
Qed.

Lemma search_sound (p : list Regex.node) :
  forall s m, Regex.search p s = Some m ->
              exists pre s', s = pre ++ s' /\ Regex.matchHere p s' [] = Some m.
Proof.
  induction s as [|x s IH]; intros m; simpl.
  - destruct (Regex.matchHere p [] []) eqn:Hm; [|discriminate].
    intros [= <-]. now exists [], [].
  - destruct (Regex.matchHere p (x :: s) []) eqn:Hm.
    + intros [= <-]. now exists [], (x :: s).
    + intros Hs. apply IH in Hs as (pre & s' & -> & Hs).
      now exists (x :: pre), s'.
Qed.

Lemma search_complete (p : list Regex.node) :
  forall pre s', Regex.matchHere p s' [] <> None ->
                 Regex.search p (pre ++ s') <> None.
Proof.
  induction pre as [|x pre IH]; intros s' Hm; simpl.
  - destruct s'; simpl; destruct (Regex.matchHere p _ []); congruence.
  - destruct (Regex.matchHere p (x :: pre ++ s') []); [congruence | now apply IH].
Qed.

(** The hash of a line is what stands between the ["] "] that closes the
    bracketed stamp and the next [":"]. *)
Lemma hashOfLine_sound (line h : jsstring) :
  hashOfLine line = Some h ->
  exists pre stamp post,
    line = pre ++ js "[" ++ stamp ++ js "] " ++ h ++ js ":" ++ post /\
    noTerminator stamp /\ noTerminator h /\ ~ In 58%N h.
Proof.
  unfold hashOfLine.
  destruct (Regex.search Regex.logLine line) as [m|] eqn:Hs; [|discriminate].
  apply search_sound in Hs as (pre & s' & -> & Hm).
  apply matchHere_logLine_sound in Hm as (g1 & g2 & post & -> & -> & H1 & H2 & H3).
  simpl. intros [= <-]. now exists pre, g1, post.
Qed.

(** A line is skipped only if it has no such shape. *)
Lemma hashOfLine_complete (pre stamp h post : jsstring) :
  noTerminator stamp -> noTerminator h ->
  hashOfLine (pre ++ js "[" ++ stamp ++ js "] " ++ h ++ js ":" ++ post) <> None.
Proof.
  intros H1 H2. unfold hashOfLine.
  destruct (Regex.search Regex.logLine _) as [m|] eqn:Hs.
  - apply search_sound in Hs as (pre' & s' & _ & Hm).
    apply matchHere_logLine_sound in Hm as (g1 & g2 & post' & -> & _).
    simpl. discriminate.
  - exfalso. revert Hs. apply search_complete.
    now apply matchHere_logLine_complete.
Qed.

Lemma dropWhile_head (p : N -> bool) (s : jsstring) (c : N) (t : jsstring) :
  dropWhile p s = c :: t -> p c = false.
Proof.
  induction s as [|x s IH]; simpl; [discriminate|].
  destruct (p x) eqn:Hx; [assumption|]. now intros [= <- _].
Qed.

Lemma dropWhile_nil (p : N -> bool) (s : jsstring) :
  dropWhile p s = [] -> forall c, In c s -> p c = true.
Proof.
  induction s as [|x s IH]; simpl; [intros _ c []|].
  destruct (p x) eqn:Hx; [|discriminate].
  intros Hs c [<- | Hc]; [assumption | now apply IH].
Qed.

(** A line that [trim] empties holds nothing but white space. *)
Lemma trim_blank (line : jsstring) :
  truthy (trim line) = false -> forall c, In c line -> isTrimmed c = true.
Proof.
  unfold trim. intros Ht.
  destruct (rev (dropWhile isTrimmed (rev (dropWhile isTrimmed line)))) eqn:Hr;
    [clear Ht | discriminate].
  apply (f_equal (@rev N)) in Hr. rewrite rev_involutive in Hr. simpl in Hr.
  destruct (dropWhile isTrimmed line) as [|c0 t] eqn:Hd.
  - now apply dropWhile_nil.
  - exfalso. pose proof (dropWhile_head _ _ Hd) as Hc0.
    pose proof (dropWhile_nil _ _ Hr c0) as Hall.
    rewrite Hall in Hc0; [discriminate|].
    apply in_rev. rewrite rev_involutive. now left.
Qed.

(** Such a line has no ["["], and so no match: the filter on [trim] drops
    only lines that the pattern would have skipped. *)
Lemma hashOfLine_blank (line : jsstring) :
  truthy (trim line) = false -> hashOfLine line = None.
Proof.
  intros Ht. pose proof (trim_blank _ Ht) as Hall. clear Ht.
  unfold hashOfLine.
  assert (Hs : Regex.search Regex.logLine line = None); [|now rewrite Hs].
  induction line as [|x line IH]; [reflexivity|].
  change (Regex.search Regex.logLine (x :: line))
    with (match (if (x =? 91)%N
                 then Regex.matchHere (tl Regex.logLine) line []
                 else None) with
          | Some r => Some r
          | None => Regex.search Regex.logLine line
          end).
  destruct (N.eqb_spec x 91) as [-> | _].
  - specialize (Hall 91%N (or_introl eq_refl)). discriminate.
  - apply IH. intros c Hc. apply Hall. now right.
Qed.

Lemma In_dropNull {A} (a : A) (l : list (option A)) :
  In a (dropNull l) <-> In (Some a) l.
Proof.
  induction l as [|[b|] l IH]; simpl; [tauto | |].
  - rewrite IH. intuition congruence.
  - rewrite IH. intuition congruence.
Qed.

(** The parsed hashes are the hashes of the lines that match. *)
Lemma In_parseCommits (text h : jsstring) :
  In h (parseCommits text) <->
  exists line, In line (split LF text) /\ hashOfLine line = Some h.
Proof.
  unfold parseCommits. rewrite In_dropNull, in_map_iff. split.
  - intros (line & Hh & Hin). apply filter_In in Hin as [Hin _]. eauto.
  - intros (line & Hin & Hh). exists line. split; [assumption|].
    apply filter_In. split; [assumption|].
    destruct (truthy (trim line)) eqn:Ht; [reflexivity|].
    apply hashOfLine_blank in Ht. congruence.
Qed.

(** *** The value of a match *)

Lemma plain_noTerminator (s : jsstring) : plain s = true -> noTerminator s.
Proof.
  unfold plain, noTerminator. rewrite forallb_forall.
  intros Hs c Hc. apply Hs in Hc. now destruct (isLineTerminator c).
Qed.

Lemma colonFree_spec (s : jsstring) : colonFree s = true -> ~ In 58%N s.
Proof.
  unfold colonFree. rewrite forallb_forall. intros Hs Hin.
  apply Hs in Hin. discriminate.
Qed.

Lemma oneLine_spec (s : jsstring) : oneLine s = true -> ~ In LF s.
Proof.
  unfold oneLine. rewrite forallb_forall. intros Hs Hin.
  apply Hs in Hin. unfold LF in Hin. discriminate.
Qed.

Lemma plain_oneLine (s : jsstring) : plain s = true -> ~ In LF s.
Proof.
  intros Hs Hin. apply plain_noTerminator in Hs. apply Hs in Hin. discriminate.
Qed.

Lemma hasCloser_app (g1 g2 : jsstring) :
  hasCloser (g1 ++ 93%N :: 32%N :: g2) = true.
Proof.
  induction g1 as [|x g1 IH]; [reflexivity|].
  cbn [app hasCloser]. rewrite IH. apply orb_true_r.
Qed.

(** A lazy group stops at the first split that the rest of the pattern
    accepts, and with the answer that it gives there. *)
Lemma lazyDots_first {R} (k : jsstring -> jsstring -> option R) :
  forall g rest held r,
    noTerminator g ->
    (forall g1 c g2, g = g1 ++ c :: g2 ->
                     k (c :: g2 ++ rest) (rev held ++ g1) = None) ->
    k rest (rev held ++ g) = Some r ->
    Regex.lazyDots k (g ++ rest) held = Some r.
Proof.
  induction g as [|x g IH]; intros rest held r Hg Hmin Hk.
  - rewrite app_nil_r in Hk. cbn [app].
    destruct rest; cbn [Regex.lazyDots]; now rewrite Hk.
  - cbn [app Regex.lazyDots].
    pose proof (Hmin [] x g eq_refl) as H0. rewrite app_nil_r in H0.
    cbn [app] in H0. rewrite H0, (Hg x (or_introl eq_refl)).
    apply IH.
    + intros c Hc. apply Hg. now right.
    + intros g1 c g2 ->. cbn [rev]. rewrite <- app_assoc.
      apply (Hmin (x :: g1) c g2 eq_refl).
    + cbn [rev]. now rewrite <- app_assoc.
Qed.

Lemma search_here (p : list Regex.node) (s : jsstring) (m : list jsstring) :
  Regex.matchHere p s [] = Some m -> Regex.search p s = Some m.
Proof. intros Hm. destruct s; cbn [Regex.search]; now rewrite Hm. Qed.

Lemma hashOfLine_value (stamp h tail : jsstring) :
  hasCloser stamp = false -> noTerminator stamp ->
  noTerminator h -> ~ In 58%N h ->
  hashOfLine (js "[" ++ stamp ++ js "] " ++ h ++ js ":" ++ tail) = Some h.
Proof.
  intros Hclose Hs Hh Hcolon. unfold hashOfLine.
  rewrite (@search_here _ _ [stamp; h]); [reflexivity|].
  change (js "[" ++ stamp ++ js "] " ++ h ++ js ":" ++ tail)
    with (91%N :: stamp ++ (93%N :: 32%N :: h ++ 58%N :: tail)).
  unfold Regex.logLine. cbn [Regex.matchHere N.eqb Pos.eqb].
  apply lazyDots_first; [assumption | |].
  - intros g1 c g2 ->. cbn [Regex.matchHere].
    destruct (N.eqb_spec c 93) as [-> | _]; [|reflexivity].
    destruct g2 as [|x g2]; cbn [app]; [reflexivity|].
    destruct (N.eqb_spec x 32) as [-> | _]; [|reflexivity].
    now rewrite hasCloser_app in Hclose.
  - cbn [Regex.matchHere N.eqb Pos.eqb rev app].
    apply lazyDots_first; [assumption | |].
    + intros g1 c g2 ->. cbn [Regex.matchHere].
      destruct (N.eqb_spec c 58) as [-> | _]; [|reflexivity].
      exfalso. apply Hcolon. apply in_elt.
    + cbn [Regex.matchHere N.eqb Pos.eqb rev app]. reflexivity.
Qed.

(** *** Lines *)

Lemma split_nonempty (sep : N) (s : jsstring) : split sep s <> [].
Proof.
  destruct s as [|c s]; cbn [split]; [discriminate|].
  destruct (c =? sep)%N; [discriminate|].
  destruct (split sep s); discriminate.
Qed.

Lemma split_app (sep : N) (a b : jsstring) :
  split sep (a ++ sep :: b) = split sep a ++ split sep b.
Proof.
  induction a as [|c a IH]; cbn [app split].
  - now rewrite N.eqb_refl.
  - destruct (c =? sep)%N; [now rewrite IH|].
    rewrite IH. pose proof (split_nonempty sep a) as Hne.
    destruct (split sep a); [contradiction | reflexivity].
Qed.

Lemma split_line (sep : N) (s : jsstring) : ~ In sep s -> split sep s = [s].
Proof.
  induction s as [|c s IH]; intros Hs; cbn [split]; [reflexivity|].
  destruct (N.eqb_spec c sep) as [-> | _]; [exfalso; apply Hs; now left|].
  rewrite IH; [reflexivity | intros Hin; apply Hs; now right].
Qed.

Lemma dropNull_app {A} (l1 l2 : list (option A)) :
  dropNull (l1 ++ l2) = dropNull l1 ++ dropNull l2.
Proof.
  induction l1 as [|[a|] l1 IH]; cbn [app dropNull]; [reflexivity | | assumption].
  now rewrite IH.
Qed.

(** Parsing is done line by line. *)
Lemma parseCommits_app (a b : jsstring) :
  parseCommits (a ++ nl ++ b) = parseCommits a ++ parseCommits b.
Proof.
  unfold parseCommits, nl. cbn [app].
  now rewrite split_app, filter_app, map_app, dropNull_app.
Qed.

Lemma parseCommits_line (line : jsstring) :
  ~ In LF line ->
  parseCommits line = match hashOfLine line with Some h => [h] | None => [] end.
Proof.
  intros Hl. unfold parseCommits. rewrite (@split_line LF line Hl). cbn [filter].
  destruct (truthy (trim line)) eqn:Ht; [reflexivity|].
  now rewrite (hashOfLine_blank _ Ht).
Qed.

Lemma parseCommits_closed (b : jsstring) : parseCommits (b ++ nl) = parseCommits b.
Proof.
  rewrite <- (app_nil_r (b ++ nl)), <- app_assoc, parseCommits_app.
  apply app_nil_r.
Qed.

(** *** Which match is taken *)

Lemma matchHere_logLine_head (c : N) (s : jsstring) :
  c <> 91%N -> Regex.matchHere Regex.logLine (c :: s) [] = None.
Proof.
  intros Hc. unfold Regex.logLine. cbn [Regex.matchHere].
  destruct (N.eqb_spec c 91); [contradiction | reflexivity].
Qed.

(** The search passes over what holds no bracket that opens. *)
Lemma search_skip (pre s : jsstring) :
  ~ In 91%N pre ->
  Regex.search Regex.logLine (pre ++ s) = Regex.search Regex.logLine s.
Proof.
  induction pre as [|c pre IH]; intros Hpre; cbn [app]; [reflexivity|].
  cbn [Regex.search]. rewrite matchHere_logLine_head.
  - apply IH. intros Hin. apply Hpre. now right.
  - intros ->. apply Hpre. now left.
Qed.

Lemma hashOfLine_value_after (pre stamp h tail : jsstring) :
  ~ In 91%N pre ->
  hasCloser stamp = false -> noTerminator stamp ->
  noTerminator h -> ~ In 58%N h ->
  hashOfLine (pre ++ js "[" ++ stamp ++ js "] " ++ h ++ js ":" ++ tail) = Some h.
Proof.
  intros Hpre Hclose Hs Hh Hcolon.
  pose proof (hashOfLine_value tail Hclose Hs Hh Hcolon) as Hv.
  unfold hashOfLine in *. now rewrite search_skip.
Qed.

(** The search stops at the first start at which the pattern matches. *)
Lemma search_first (p : list Regex.node) :
  forall s m,
    Regex.search p s = Some m ->
    exists pre s',
      s = pre ++ s' /\ Regex.matchHere p s' [] = Some m /\
      forall p1 c p2, pre = p1 ++ c :: p2 ->
                      Regex.matchHere p (c :: p2 ++ s') [] = None.
Proof.
  induction s as [|x s IH]; intros m; cbn [Regex.search].
  - destruct (Regex.matchHere p [] []) eqn:Hm; [|discriminate].
    intros [= <-]. exists [], []. repeat split; try assumption.
    intros [|? ?] ? ? [=].
  - destruct (Regex.matchHere p (x :: s) []) eqn:Hm.
    + intros [= <-]. exists [], (x :: s). repeat split; try assumption.
      intros [|? ?] ? ? [=].
    + intros Hs. apply IH in Hs as (pre & s' & -> & Hs & Hleft).
      exists (x :: pre), s'. repeat split; try assumption.
      intros [|y p1] c p2 [= -> ->]; [assumption|].
      apply (Hleft p1 c p2 eq_refl).
Qed.

Lemma hasCloser_true (s : jsstring) :
  hasCloser s = true -> exists g1 g2, s = g1 ++ 93%N :: 32%N :: g2.
Proof.
  induction s as [|c s IH]; cbn [hasCloser]; [discriminate|].
  intros Hs. apply orb_true_iff in Hs as [Hs | Hs].
  - apply andb_true_iff in Hs as [Hc Hx]. apply N.eqb_eq in Hc as ->.
    destruct s as [|x s]; [discriminate|]. apply N.eqb_eq in Hx as ->.
    now exists [], s.
  - destruct (IH Hs) as (g1 & g2 & ->). now exists (c :: g1), g2.
Qed.

Lemma noTerminator_app (a b : jsstring) :
  noTerminator (a ++ b) <-> noTerminator a /\ noTerminator b.
Proof.
  unfold noTerminator. split.
  - intros Hab. split; intros c Hc; apply Hab, in_or_app; auto.
  - intros [Ha Hb] c Hc. apply in_app_or in Hc as [Hc | Hc]; auto.
Qed.

(** The first group of a match holds no ["] "]: the group is lazy, and
    after an earlier ["] "] the rest would have matched as well. *)
Lemma matchHere_logLine_first (s : jsstring) (m : list jsstring) :
  Regex.matchHere Regex.logLine s [] = Some m ->
  exists g1 g2 post,
    m = [g1; g2] /\
    s = js "[" ++ g1 ++ js "] " ++ g2 ++ js ":" ++ post /\
    noTerminator g1 /\ noTerminator g2 /\ ~ In 58%N g2 /\
    hasCloser g1 = false.
Proof.
  unfold Regex.logLine. simpl.
  destruct s as [|x s]; [discriminate|].
  destruct (N.eqb_spec x 91); [subst x | discriminate].
  intros Hl. apply lazyDots_sound in Hl as (g1 & rest & -> & Hg1 & Hk & Hmin1).
  simpl in Hk, Hmin1.
  destruct rest as [|y rest]; [discriminate|].
  destruct (N.eqb_spec y 93); [subst y | discriminate].
  destruct rest as [|z rest]; [discriminate|].
  destruct (N.eqb_spec z 32); [subst z | discriminate].
  apply lazyDots_sound in Hk as (g2 & rest' & -> & Hg2 & Hk & Hmin).
  simpl in Hk.
  destruct rest' as [|u post]; [discriminate|].
  destruct (N.eqb_spec u 58); [subst u | discriminate].
  injection Hk as <-.
  exists g1, g2, post. repeat split; try assumption.
  - intros Hin. apply in_split in Hin as (a & b & ->).
    specialize (Hmin a 58%N b eq_refl). simpl in Hmin. discriminate.
  - destruct (hasCloser g1) eqn:Hclose; [exfalso | reflexivity].
    apply hasCloser_true in Hclose as (a & b & ->).
    specialize (Hmin1 a 93%N (32%N :: b) eq_refl).
    cbn [app] in Hmin1. rewrite !N.eqb_refl in Hmin1.
    revert Hmin1.
    change (b ++ 93%N :: 32%N :: g2 ++ 58%N :: post)
      with (b ++ (93%N :: 32%N :: g2) ++ 58%N :: post).
    rewrite app_assoc.
    apply lazyDots_complete.
    + apply noTerminator_app. split.
      * intros c Hc. apply Hg1. apply in_or_app. right. right. now right.
      * intros c [<- | [<- | Hc]]; [reflexivity | reflexivity | now apply Hg2].
    + cbn [rev app]. rewrite N.eqb_refl. discriminate.
Qed.

(** On a line without line terminator the match starts at the first
    bracket that opens. *)
Lemma hashOfLine_plain (line h : jsstring) :
  noTerminator line ->
  hashOfLine line = Some h ->
  exists pre stamp post,
    line = pre ++ js "[" ++ stamp ++ js "] " ++ h ++ js ":" ++ post /\
    ~ In 91%N pre /\ hasCloser stamp = false /\ ~ In 58%N h.
Proof.
  intros Hline. unfold hashOfLine.
  destruct (Regex.search Regex.logLine line) as [m|] eqn:Hs; [|discriminate].
  apply search_first in Hs as (pre & s' & -> & Hm & Hleft).
  apply matchHere_logLine_first in Hm
      as (g1 & g2 & post & -> & -> & H1 & H2 & H3 & H4).
  simpl. intros [= <-]. exists pre, g1, post. repeat split; try assumption.
  intros Hin. apply in_split in Hin as (p1 & p2 & ->).
  specialize (Hleft p1 91%N p2 eq_refl). revert Hleft.
  change (91%N :: p2 ++ js "[" ++ g1 ++ js "] " ++ g2 ++ js ":" ++ post)
    with (js "[" ++ p2 ++ js "[" ++ g1 ++ js "] " ++ g2 ++ js ":" ++ post).
  rewrite (app_assoc p2), (app_assoc (p2 ++ js "[")).
  apply matchHere_logLine_complete; [|assumption].
  apply noTerminator_app in Hline as [Hpre _].
  apply noTerminator_app in Hpre as [_ Hp2].
  apply noTerminator_app. split; [|assumption].
  apply noTerminator_app. split.
  - intros c Hc. apply Hp2. now right.
  - intros c [<- | []]. reflexivity.
Qed.

(** ** Runs of the two procedures *)

Ltac unfoldM :=
  cbv [bind tryCatch call emit ret throw getProcessed setProcessed
       getHost fetchExisting observe] in *;
  cbn [processedCommits host trace fst snd negb] in *.

Ltac caseStep :=
  match goal with
  | x : Existing |- _ => destruct x; cbn [content sha] in *
  | |- context [match ?x with _ => _ end] =>
      lazymatch x with
      | context [match _ with _ => _ end] => fail
      | errorMessage _ => fail
      | _ => destruct x eqn:?
      end
  end.

Section Runs.

Context {E : Type} `{Host E}.

Lemma extends_refl s : extends s s.
Proof. exists []. now rewrite app_nil_r. Qed.

Lemma extends_trans s1 s2 s3 : extends s1 s2 -> extends s2 s3 -> extends s1 s3.
Proof. intros [a ->] [b ->]. exists (a ++ b). now rewrite app_assoc. Qed.

Lemma extends_add h s : extends s (JsSet.add h s).
Proof. apply add_extends. Qed.

Lemma body_never_throws (self : M E unit) (w : World E) e w' :
  trackGitChangeBody self w <> Throw e w'.
Proof.
  unfold trackGitChangeBody. unfoldM.
  repeat (caseStep; unfoldM; try discriminate).
Qed.

Lemma never_throws (fuel : nat) (w : World E) e w' :
  trackGitChange fuel w <> Throw e w'.
Proof.
  destruct fuel; [discriminate | apply body_never_throws].
Qed.

(** One more call in the budget: the first attempt, and on a retry the
    rest of the budget from where the attempt stopped. *)
Lemma trackGitChange_S (fuel : nat) (w : World E) :
  trackGitChange (S fuel) w =
  match trackGitChange 1 w with
  | Return a w1 => Return a w1
  | Throw e w1 => Throw e w1
  | OutOfFuel w1 => trackGitChange fuel w1
  end.
Proof.
  change (trackGitChange (S fuel)) with (trackGitChangeBody (trackGitChange fuel)).
  change (trackGitChange 1) with (trackGitChangeBody (fun w => OutOfFuel w)).
  unfold trackGitChangeBody. unfoldM.
  repeat (caseStep; unfoldM; try reflexivity).
  all: exfalso; eapply never_throws; eassumption.
Qed.

Lemma snoc_app {A} (l : list A) (a : A) (r : list A) :
  (l ++ [a]) ++ r = l ++ a :: r.
Proof. now rewrite <- app_assoc. Qed.

Ltac attemptCases :=
  change (trackGitChange 1) with (trackGitChangeBody (fun w => OutOfFuel w));
  unfold trackGitChangeBody; unfoldM;
  repeat (caseStep; unfoldM);
  repeat match goal with
    | u : unit |- _ => destruct u
    | Hb : negb ?a = _ |- _ => destruct a; try discriminate Hb; clear Hb
    end;
  subst; cbn [verdictOf].

Lemma attempt_shape (w : World E) :
  exists v w1 new,
    verdictOf (trackGitChange 1 w) = Some (v, w1) /\
    trace w1 = trace w ++ new /\
    Shape (processedCommits w) new v (processedCommits w1).
Proof.
  attemptCases.
  all: eexists _, _, _; (split; [reflexivity|]); cbn [trace processedCommits].
  all: rewrite ?snoc_app.
  all: try (split; [symmetry; apply app_nil_r | apply sh_idle]).
  all: (split; [reflexivity|]).
  all: econstructor; first [eassumption | exact I | reflexivity].
Qed.

Lemma verdict_ends (R : Outcome E unit) v (w' : World E) :
  verdictOf R = Some (v, w') ->
  ends R w' /\
  (v = Stop -> R = Return tt w') /\ (v = Again -> R = OutOfFuel w') /\
  (R = Return tt w' -> v = Stop) /\ (R = OutOfFuel w' -> v = Again).
Proof.
  unfold ends. destruct R as [[] w1 | e w1 | w1]; cbn [verdictOf];
    intros [= <- <-]; repeat split; auto; discriminate.
Qed.

(** Every run, under every budget, is a sequence of attempts. *)
Lemma run_shapes (fuel : nat) :
  forall w : World E,
    exists v w' n new,
      verdictOf (trackGitChange fuel w) = Some (v, w') /\
      trace w' = trace w ++ new /\
      Shapes v n (processedCommits w) new (processedCommits w') /\
      match v with
      | Stop => n < fuel /\ trackGitChange (S n) w = Return tt w'
      | Again => n = fuel
      end.
Proof.
  induction fuel as [|fuel IH]; intros w.
  - exists Again, w, 0, []. rewrite app_nil_r.
    repeat split. constructor.
  - rewrite trackGitChange_S.
    destruct (attempt_shape w) as (v & w1 & new & Hv & Ht & Hs).
    destruct (trackGitChange 1 w) as [[] w0 | e w0 | w0] eqn:H1;
      cbn [verdictOf] in Hv; try discriminate Hv; injection Hv as <- <-.
    + exists Stop, w0, 0, new.
      repeat split; [assumption | now constructor | lia | assumption].
    + destruct (IH w0) as (v & w' & n & new' & Hv & Ht' & Hs' & Hn).
      exists v, w', (S n), (new ++ new').
      split; [assumption|]. split; [now rewrite Ht', Ht, app_assoc|].
      split; [econstructor; eassumption|].
      destruct v; [|lia]. destruct Hn as [Hn Hmin].
      split; [lia|]. now rewrite trackGitChange_S, H1.
Qed.

(** *** Reading a trace *)

Lemma occurs_app (l1 l2 pre : list Event) (ev : Event) (post : list Event) :
  l1 ++ l2 = pre ++ ev :: post ->
  (exists post1, l1 = pre ++ ev :: post1 /\ post = post1 ++ l2) \/
  (exists pre2, pre = l1 ++ pre2 /\ l2 = pre2 ++ ev :: post).
Proof.
  revert pre. induction l1 as [|x l1 IH]; intros pre Heq; cbn [app] in Heq.
  - right. now exists pre.
  - destruct pre as [|y pre]; cbn [app] in Heq; injection Heq as -> Heq.
    + left. now exists l1.
    + apply IH in Heq as [(post1 & -> & ->) | (pre2 & -> & ->)].
      * left. now exists post1.
      * right. now exists pre2.
Qed.

Ltac walk Heq :=
  repeat match type of Heq with
    | [] = ?pre ++ _ :: _ => destruct pre; discriminate Heq
    | _ :: _ = ?pre ++ _ :: _ =>
        let x := fresh "x" in
        destruct pre as [|x pre]; cbn [app] in Heq;
        [ try discriminate Heq | injection Heq as <- Heq ]
    end.

Ltac shapeCases Hs :=
  destruct Hs;
  unfold upToPut, upToFetch, fatal, conflictLog in *; cbn [app] in *.

Lemma shape_mirrorAfterFetch s new v s' :
  Shape s new v s' -> mirrorAfterFetch new.
Proof.
  intros Hs pre d r post Heq. shapeCases Hs; walk Heq.
  all: injection Heq as <- <- <-.
  all: match goal with
       | |- exists pre' p c o r4, ?x :: _ = _ /\ _ => exists [x]
       end; eexists _, _, _, _; (split; [reflexivity|]); now split.
Qed.

Lemma shape_writesFromFetch s new v s' :
  Shape s new v s' -> writesFromFetch new.
Proof.
  intros Hs pre o m d t r post Heq. shapeCases Hs; walk Heq.
  all: injection Heq as <- <- <- <- <- <-.
  all: match goal with
       | |- exists pre' p c r4, ?x :: _ = _ /\ _ => exists [x]
       end; eexists _, _, _; (split; [reflexivity|]); now repeat split.
Qed.

Lemma shapes_mirrorAfterFetch v n s new s' :
  Shapes v n s new s' -> mirrorAfterFetch new.
Proof.
  induction 1 as [s | s new s' Hs | v n s new s1 new' s' Hs _ IH].
  - intros [|? ?]; discriminate.
  - eapply shape_mirrorAfterFetch; eassumption.
  - intros pre d r post Heq.
    apply occurs_app in Heq as [(post1 & Heq & ->) | (pre2 & -> & Heq)].
    + eapply shape_mirrorAfterFetch; eassumption.
    + apply IH in Heq as (pre' & p & c & o & r4 & -> & Hr).
      exists (new ++ pre'), p, c, o, r4. now rewrite app_assoc.
Qed.

Lemma shapes_writesFromFetch v n s new s' :
  Shapes v n s new s' -> writesFromFetch new.
Proof.
  induction 1 as [s | s new s' Hs | v n s new s1 new' s' Hs _ IH].
  - intros [|? ?]; discriminate.
  - eapply shape_writesFromFetch; eassumption.
  - intros pre o m d t r post Heq.
    apply occurs_app in Heq as [(post1 & Heq & ->) | (pre2 & -> & Heq)].
    + eapply shape_writesFromFetch; eassumption.
    + apply IH in Heq as (pre' & p & c & r4 & -> & Hr).
      exists (new ++ pre'), p, c, r4. now rewrite app_assoc.
Qed.

Lemma shape_mirrorFollowsFetch s new v s' :
  Shape s new v s' -> mirrorFollowsFetch new.
Proof.
  intros Hs pre o r4 post Heq Hr4. shapeCases Hs; walk Heq.
  all: injection Heq as <- <- <-.
  all: try (cbn [fetched] in Hr4; congruence).
  all: match goal with
       | |- exists pre' p c r5 post', ?x :: _ = _ /\ _ => exists [x]
       end; eexists _, _, _, _; split; reflexivity.
Qed.

Lemma shapes_mirrorFollowsFetch v n s new s' :
  Shapes v n s new s' -> mirrorFollowsFetch new.
Proof.
  induction 1 as [s | s new s' Hs | v n s new s1 new' s' Hs _ IH].
  - intros [|? ?]; discriminate.
  - eapply shape_mirrorFollowsFetch; eassumption.
  - intros pre o r4 post Heq Hr4.
    apply occurs_app in Heq as [(post1 & Heq & ->) | (pre2 & -> & Heq)].
    + destruct (shape_mirrorFollowsFetch Hs _ _ _ _ Heq Hr4)
        as (pre' & p & c & r5 & post' & -> & ->).
      now exists pre', p, c, r5, (post' ++ new').
    + destruct (IH _ _ _ _ Heq Hr4) as (pre' & p & c & r5 & post' & -> & ->).
      exists (new ++ pre'), p, c, r5, post'. now rewrite app_assoc.
Qed.

Lemma shape_startsAtTop s new v s' : Shape s new v s' -> startsAtTop new.
Proof.
  intros Hs. shapeCases Hs; solve [now left | right; eauto].
Qed.

Lemma shape_again_nonempty s new s' : Shape s new Again s' -> new <> [].
Proof.
  intros Hs. inversion Hs; subst; unfold upToPut, upToFetch; discriminate.
Qed.

Lemma shapes_startsAtTop v n s new s' : Shapes v n s new s' -> startsAtTop new.
Proof.
  destruct 1 as [s | s new s' Hs | v n s new s1 new' s' Hs _].
  - now left.
  - eapply shape_startsAtTop; eassumption.
  - pose proof (shape_again_nonempty Hs) as Hne.
    apply shape_startsAtTop in Hs as [-> | (p & r & rest & ->)];
      [contradiction | right; cbn [app]; eauto].
Qed.

(** How an attempt goes on after the answer of the remote write. *)
Lemma shape_afterPut s new v s' :
  Shape s new v s' ->
  forall pre o m d t r post,
    new = pre ++ CreateOrUpdate o m d t r :: post ->
    match r with
    | Ok _ =>
        exists c base r7 post',
          d = base ++ logEntryOf c /\ JsSet.has (hash c) s = false /\
          s' = JsSet.add (hash c) s /\
          post = WorkspaceStateUpdate s' r7 :: post'
    | Err e =>
        s' = s /\
        if is409 e then post = [conflictLog] /\ v = Again
        else post = fatal e /\ v = Stop
    end.
Proof.
  intros Hs pre o m d t r post Heq. shapeCases Hs; walk Heq.
  all: injection Heq as <- <- <- <- <- <-.
  all: try match goal with Hc : is409 _ = _ |- _ => rewrite Hc end.
  all: try (split; [reflexivity | now split]).
  all: eexists _, _, _, _; (split; [reflexivity|]); now repeat split.
Qed.

(** The ledger after an attempt: as before, or with the hash of the commit
    whose entry the remote store accepted. *)
Lemma shape_ledger s new v s' :
  Shape s new v s' ->
  s' = s \/
  exists pre o m c base t post,
    new = pre ++ CreateOrUpdate o m (base ++ logEntryOf c) t (Ok tt) :: post /\
    s' = JsSet.add (hash c) s.
Proof.
  intros Hs. shapeCases Hs; try (now left); right.
  all: match goal with
       | |- exists pre o m c base t post,
             ?a :: ?b :: ?c0 :: ?d0 :: ?e0 :: _ = _ /\ _ =>
           exists [a; b; c0; d0; e0]
       end; eexists _, _, _, _, _, _; split; reflexivity.
Qed.

Lemma shape_extends s new v s' : Shape s new v s' -> extends s s'.
Proof.
  intros Hs. apply shape_ledger in Hs as [-> | (? & ? & ? & c & ? & ? & ? & _ & ->)].
  - apply extends_refl.
  - apply extends_add.
Qed.

Lemma shapes_extends v n s new s' : Shapes v n s new s' -> extends s s'.
Proof.
  induction 1 as [s | s new s' Hs | v n s new s1 new' s' Hs _ IH].
  - apply extends_refl.
  - eapply shape_extends; eassumption.
  - eapply extends_trans; [eapply shape_extends; eassumption | exact IH].
Qed.

(** The ledger stays free of duplicates, as a [Set] is. *)
Lemma shapes_NoDup v n s new s' : Shapes v n s new s' -> NoDup s -> NoDup s'.
Proof.
  induction 1 as [s | s new s' Hs | v n s new s1 new' s' Hs _ IH]; intros Hnd.
  - assumption.
  - apply shape_ledger in Hs as [-> | (? & ? & ? & c & ? & ? & ? & _ & ->)];
      [assumption | now apply add_NoDup].
  - apply IH.
    apply shape_ledger in Hs as [-> | (? & ? & ? & c & ? & ? & ? & _ & ->)];
      [assumption | now apply add_NoDup].
Qed.

Lemma shape_recorded s new v s' : Shape s new v s' -> recordedAfterWrite s new s'.
Proof.
  intros Hs h Hin Hout.
  apply shape_ledger in Hs
      as [-> | (pre & o & m & c & base & t & post & -> & ->)]; [contradiction|].
  apply In_add in Hin as [-> | Hin]; [|contradiction].
  now exists pre, o, m, c, base, t, post.
Qed.

Lemma shapes_recorded v n s new s' :
  Shapes v n s new s' -> recordedAfterWrite s new s'.
Proof.
  induction 1 as [s | s new s' Hs | v n s new s1 new' s' Hs _ IH].
  - intros h Hin Hout. contradiction.
  - eapply shape_recorded; eassumption.
  - intros h Hin Hout.
    destruct (in_dec (list_eq_dec N.eq_dec) h s1) as [Hmid | Hmid].
    + destruct (shape_recorded Hs h Hmid Hout)
        as (pre & o & m & c & base & t & post & -> & <-).
      exists pre, o, m, c, base, t, (post ++ new').
      now rewrite <- app_assoc.
    + destruct (IH h Hin Hmid) as (pre & o & m & c & base & t & post & -> & <-).
      exists (new ++ pre), o, m, c, base, t, post.
      now rewrite <- app_assoc.
Qed.

(** A remote write that fails without a conflict is the last thing but the
    report of the error, and the run has returned. *)
Lemma shapes_fatalWrite v n s new s' :
  Shapes v n s new s' ->
  forall pre o m d t e post,
    new = pre ++ CreateOrUpdate o m d t (Err e) :: post ->
    is409 e = false -> post = fatal e /\ v = Stop.
Proof.
  induction 1 as [s | s new s' Hs | v n s new s1 new' s' Hs _ IH];
    intros pre o m d t e post Heq He.
  - destruct pre; discriminate.
  - pose proof (shape_afterPut Hs _ _ _ _ _ _ _ Heq) as Hp. cbn in Hp.
    rewrite He in Hp. tauto.
  - apply occurs_app in Heq as [(post1 & Heq & ->) | (pre2 & -> & Heq)].
    + pose proof (shape_afterPut Hs _ _ _ _ _ _ _ Heq) as Hp. cbn in Hp.
      rewrite He in Hp. destruct Hp as (_ & _ & [=]).
    + eapply IH; eassumption.
Qed.

Lemma shapes_retriedWrite v n s new s' : Shapes v n s new s' -> retriedWrite new.
Proof.
  induction 1 as [s | s new s' Hs | v n s new s1 new' s' Hs Hss IH];
    intros pre o m d t e post Heq He.
  - destruct pre; discriminate.
  - pose proof (shape_afterPut Hs _ _ _ _ _ _ _ Heq) as Hp. cbn in Hp.
    rewrite He in Hp. destruct Hp as (_ & _ & [=]).
  - apply occurs_app in Heq as [(post1 & Heq & ->) | (pre2 & -> & Heq)].
    + pose proof (shape_afterPut Hs _ _ _ _ _ _ _ Heq) as Hp. cbn in Hp.
      rewrite He in Hp. destruct Hp as (_ & -> & _).
      exists new'. split; [reflexivity | eapply shapes_startsAtTop; eassumption].
    + eapply IH; eassumption.
Qed.

Lemma shapes_persisted v n s new s' :
  Shapes v n s new s' -> persistedAfterWrite s new s'.
Proof.
  induction 1 as [s | s new s' Hs | v n s new s1 new' s' Hs Hss IH];
    intros pre o m d t post Heq.
  - destruct pre; discriminate.
  - destruct (shape_afterPut Hs _ _ _ _ _ _ _ Heq)
      as (c & base & r7 & post' & -> & _ & -> & ->).
    exists c, base, (JsSet.add (hash c) s), r7, post'.
    repeat split; [apply In_add; now left | apply extends_add | apply extends_refl].
  - apply occurs_app in Heq as [(post1 & Heq & ->) | (pre2 & -> & Heq)].
    + destruct (shape_afterPut Hs _ _ _ _ _ _ _ Heq)
        as (c & base & r7 & post' & -> & _ & -> & ->).
      exists c, base, (JsSet.add (hash c) s), r7, (post' ++ new').
      repeat split;
        [apply In_add; now left | apply extends_add
        | eapply shapes_extends; eassumption].
    + destruct (IH _ _ _ _ _ _ Heq)
        as (c & base & u & r7 & post' & -> & -> & Hin & Hu & Hu').
      exists c, base, u, r7, post'. repeat split; try assumption.
      eapply extends_trans; [eapply shape_extends; eassumption | exact Hu].
Qed.

Lemma shape_createsWhenNotFound s new v s' :
  Shape s new v s' -> createsWhenNotFound new s'.
Proof.
  intros Hs pre o e post Heq He. shapeCases Hs; walk Heq.
  all: injection Heq as <- Heq; try subst.
  all: try congruence.
  all: cbn [basis fst snd app commitMessage] in *.
  all: match goal with
       | |- exists pre' p c r5 post', ?x :: _ = _ /\ _ => exists [x]
       end; eexists _, _, _, _; (split; [reflexivity|]); (split; [reflexivity|]).
  all: intros Hok; try discriminate Hok.
  all: eexists _, _; (split; [reflexivity|]).
  all: intros Hok'; try discriminate Hok'.
  all: apply In_add; now left.
Qed.

Lemma shapes_createsWhenNotFound v n s new s' :
  Shapes v n s new s' -> createsWhenNotFound new s'.
Proof.
  induction 1 as [s | s new s' Hs | v n s new s1 new' s' Hs Hss IH];
    intros pre o e post Heq He.
  - destruct pre; discriminate.
  - eapply shape_createsWhenNotFound; eassumption.
  - apply occurs_app in Heq as [(post1 & Heq & ->) | (pre2 & -> & Heq)].
    + destruct (shape_createsWhenNotFound Hs _ _ _ _ Heq He)
        as (pre' & p & c & r5 & post' & -> & -> & Hput).
      exists pre', p, c, r5, (post' ++ new').
      split; [reflexivity|]. split; [reflexivity|].
      intros Hok. destruct (Hput Hok) as (r6 & post'' & -> & Hin).
      exists r6, (post'' ++ new'). split; [reflexivity|].
      intros Hok'. destruct (shapes_extends Hss) as [more ->].
      apply in_or_app. left. now apply Hin.
    + destruct (IH _ _ _ _ Heq He) as (pre' & p & c & r5 & post' & -> & -> & Hput).
      exists (new ++ pre'), p, c, r5, post'.
      split; [now rewrite app_assoc|]. now split.
Qed.

(** *** Counting retries *)

Lemma count_app f l1 l2 : count f (l1 ++ l2) = count f l1 + count f l2.
Proof. unfold count. now rewrite filter_app, length_app. Qed.

Lemma is404_is409 e : is404 e = true -> is409 e = false.
Proof.
  unfold is404, is409. destruct (status e) as [n|]; [|discriminate].
  intros Hn. apply N.eqb_eq in Hn. now subst.
Qed.

Lemma shape_counts s new v s' :
  Shape s new v s' ->
  count conflictAnswer new = retriesOf v /\ count isRetryLog new = retriesOf v.
Proof.
  intros Hs. destruct Hs;
    repeat match goal with
      | Hf : fetched ?r |- _ =>
          destruct r; cbn [fetched] in Hf; [clear Hf | apply is404_is409 in Hf]
      end;
    unfold upToPut, upToFetch, fatal, conflictLog, count;
    cbn [app filter conflictAnswer isRetryLog];
    repeat match goal with Hc : is409 _ = _ |- _ => rewrite Hc end;
    cbn [app filter conflictAnswer isRetryLog length retriesOf];
    split; reflexivity.
Qed.

Lemma shapes_counts v n s new s' :
  Shapes v n s new s' ->
  count conflictAnswer new = n /\ count isRetryLog new = n.
Proof.
  induction 1 as [s | s new s' Hs | v n s new s1 new' s' Hs _ [IH1 IH2]].
  - now split.
  - now apply shape_counts in Hs.
  - apply shape_counts in Hs as [H1 H2].
    rewrite !count_app, H1, H2, IH1, IH2. now split.
Qed.

(** A budget that suffices leaves the result as it is when it grows. *)
Lemma run_enough (fuel : nat) :
  forall (w w' : World E) fuel',
    trackGitChange fuel w = Return tt w' -> fuel <= fuel' ->
    trackGitChange fuel' w = Return tt w'.
Proof.
  induction fuel as [|fuel IH]; intros w w' fuel'; [discriminate|].
  destruct fuel' as [|fuel']; [lia|].
  rewrite (trackGitChange_S fuel), (trackGitChange_S fuel').
  destruct (trackGitChange 1 w); try trivial.
  intros Hrun Hle. apply IH; [assumption | lia].
Qed.

(** A run that the budget cuts has retried as often as the budget allows. *)
Lemma cut_counts (fuel : nat) (w w' : World E) :
  trackGitChange fuel w = OutOfFuel w' ->
  exists new,
    trace w' = trace w ++ new /\
    count conflictAnswer new = fuel /\ count isRetryLog new = fuel.
Proof.
  intros Hcut.
  destruct (run_shapes fuel w) as (v & w1 & n & new & Hv & Ht & Hs & Hn).
  rewrite Hcut in Hv. injection Hv as <- <-. subst n.
  exists new. split; [assumption | eapply shapes_counts; eassumption].
Qed.

(** A run that returns is a run that the budget cuts after some retries,
    followed by one attempt that returns. *)
Lemma last_attempt (fuel : nat) :
  forall (w w' : World E),
    trackGitChange fuel w = Return tt w' ->
    exists k w1,
      k < fuel /\ trackGitChange k w = OutOfFuel w1 /\
      trackGitChange 1 w1 = Return tt w'.
Proof.
  induction fuel as [|fuel IH]; intros w w'; [discriminate|].
  rewrite trackGitChange_S.
  destruct (trackGitChange 1 w) as [[] w0 | e w0 | w0] eqn:H1.
  - intros [= <-]. exists 0, w. repeat split; [lia | assumption].
  - discriminate.
  - intros Hrun. apply IH in Hrun as (k & w1 & Hk & Hcut & Hlast).
    exists (S k), w1. repeat split; [lia | | assumption].
    now rewrite trackGitChange_S, H1.
Qed.

Lemma shapes_unchanged v n s new s' :
  Shapes v n s new s' ->
  (forall o m d t, ~ In (CreateOrUpdate o m d t (Ok tt)) new) -> s' = s.
Proof.
  induction 1 as [s | s new s' Hs | v n s new s1 new' s' Hs _ IH]; intros Hno.
  - reflexivity.
  - apply shape_ledger in Hs
        as [-> | (pre & o & m & c & base & t & post & -> & _)]; [reflexivity|].
    exfalso. eapply Hno. apply in_elt.
  - assert (s1 = s) as ->.
    { apply shape_ledger in Hs
        as [-> | (pre & o & m & c & base & t & post & -> & _)]; [reflexivity|].
      exfalso. eapply Hno. apply in_or_app. left. apply in_elt. }
    apply IH. intros o m d t Hin. eapply Hno. apply in_or_app. right. eassumption.
Qed.

Lemma ledger_NoDup (fuel : nat) (w w' : World E) :
  NoDup (processedCommits w) ->
  ends (trackGitChange fuel w) w' ->
  NoDup (processedCommits w').
Proof.
  intros Hnd Hends.
  destruct (run_shapes fuel w) as (v & w1 & n & new & Hv & _ & Hs & _).
  apply verdict_ends in Hv as (Hends1 & _).
  assert (w1 = w') as -> by (destruct Hends, Hends1; congruence).
  eapply shapes_NoDup; eassumption.
Qed.

(** *** The loader *)

Lemma load_returns (w : World E) :
  exists w' new,
    loadProcessedCommits w = Return tt w' /\
    trace w' = trace w ++ new /\
    (processedCommits w' = processedCommits w \/
     exists o text tag,
       In (GetContent o (Ok {| content := Some text; sha := tag |})) new /\
       processedCommits w' =
       JsSet.addAll (parseCommits text) (processedCommits w)).
Proof.
  unfold loadProcessedCommits. unfoldM.
  repeat (caseStep; unfoldM).
  all: eexists _, _; (split; [reflexivity|]); cbn [trace processedCommits].
  all: rewrite ?snoc_app; (split; [reflexivity|]).
  all: try (now left).
  right. eexists _, _, _. split; [|reflexivity]. right. now left.
Qed.

Lemma load_NoDup (w w' : World E) :
  NoDup (processedCommits w) ->
  loadProcessedCommits w = Return tt w' ->
  NoDup (processedCommits w').
Proof.
  intros Hnd Hload.
  destruct (load_returns w) as (w1 & new & Hl & _ & Hs).
  rewrite Hl in Hload. injection Hload as <-.
  destruct Hs as [-> | (o & text & tag & _ & ->)];
    [assumption | now apply addAll_NoDup].
Qed.

(** One attempt whose remote write is answered with a conflict. *)
Lemma attempt_put_conflict
      (w : World E) (path : jsstring) (rest : list jsstring)
      (c : LatestCommit) (user : jsstring) (r4 : Result Existing)
      (e : JsError) (e1 e2 e3 e4 e5 e6 : E) :
  workspace_workspaceFolders (host w) = Some (path :: rest) ->
  git_checkIsRepo path (host w) = (Ok true, e1) ->
  git_log path e1 = (Ok (Some c), e2) ->
  JsSet.has (hash c) (processedCommits w) = false ->
  users_getAuthenticated e2 = (Ok user, e3) ->
  repos_getContent user e3 = (r4, e4) ->
  fetched r4 ->
  fs_writeFileSync (fst (basis r4) ++ logEntryOf c) e4 = (Ok tt, e5) ->
  repos_createOrUpdateFileContents
    user (commitMessage (snd (basis r4))) (fst (basis r4) ++ logEntryOf c)
    (snd (basis r4)) e5 = (Err e, e6) ->
  is409 e = true ->
  trackGitChange 1 w =
  OutOfFuel {| processedCommits := processedCommits w;
               host := e6;
               trace := trace w ++ upToPut path c user r4 (Err e) ++ [conflictLog] |}.
Proof.
  intros Hf Hc Hl Hnew Hu Hg Hr4 Hm Hp He.
  cbn [trackGitChange]. unfold trackGitChangeBody. unfoldM.
  rewrite Hf, Hc. unfoldM. rewrite Hl. unfoldM. rewrite Hnew. unfoldM.
  rewrite Hu. unfoldM. rewrite Hg. unfoldM.
  destruct r4 as [[[text|] [tag|]] | e404]; cbn [basis fetched content sha fst snd] in *;
    unfoldM; try rewrite Hr4; unfoldM.
  all: rewrite Hm; unfoldM; rewrite Hp; unfoldM; rewrite He; unfoldM.
  all: unfold upToPut, upToFetch, conflictLog;
    cbn [basis content sha fst snd app]; now rewrite !snoc_app.
Qed.

Lemma shape_failure s new v s' :
  Shape s new v s' ->
  forall pre ev post, new = pre ++ ev :: post ->
    match failureOf ev with
    | Some (Outer e) => post = fatal e /\ v = Stop
    | Some (Inner e) =>
        if is409 e then post = [conflictLog] /\ v = Again
        else post = fatal e /\ v = Stop
    | None => True
    end.
Proof.
  intros Hs pre ev post Heq. shapeCases Hs; walk Heq.
  all: injection Heq as <- <-.
  all: cbn [failureOf].
  all: try match goal with
       | |- context [match ?r with Ok _ => _ | Err _ => _ end] =>
           destruct r; cbn [fetched] in *
       end.
  all: repeat match goal with
       | Hc : is404 _ = _ |- _ => rewrite Hc
       | Hc : is409 _ = _ |- _ => rewrite Hc
       end.
  all: first [exact I | split; reflexivity].
Qed.

Lemma is404_status (e : JsError) : is404 e = true <-> status e = Some 404%N.
Proof.
  unfold is404. destruct (status e) as [n|]; [|split; discriminate].
  rewrite N.eqb_eq. split; [now intros -> | now intros [= ->]].
Qed.

Lemma is409_status (e : JsError) : is409 e = true <-> status e = Some 409%N.
Proof.
  unfold is409. destruct (status e) as [n|]; [|split; discriminate].
  rewrite N.eqb_eq. split; [now intros -> | now intros [= ->]].
Qed.

Lemma isLineTerminator_units (c : N) :
  isLineTerminator c = true <->
  c = 10%N \/ c = 13%N \/ c = 8232%N \/ c = 8233%N.
Proof.
  unfold isLineTerminator. rewrite !orb_true_iff, !N.eqb_eq. tauto.
Qed.

(** What a budget cuts is resumed, under a larger budget, by the procedure
    itself from the world of the cut. *)
Lemma run_resumes (k : nat) :
  forall (w w1 : World E),
    trackGitChange k w = OutOfFuel w1 ->
    forall n, trackGitChange (k + n) w = trackGitChange n w1.
Proof.
  induction k as [|k IH]; intros w w1 Hcut n.
  - now injection Hcut as <-.
  - cbn [Nat.add]. rewrite (trackGitChange_S k) in Hcut.
    rewrite (trackGitChange_S (k + n)).
    destruct (trackGitChange 1 w); try discriminate Hcut.
    now apply IH.
Qed.

(** An attempt that meets a failure with status 409 inside the inner
    [try] calls the procedure again. *)
Lemma conflict_reruns (fuel : nat) :
  forall (w w' : World E) v new,
    verdictOf (trackGitChange fuel w) = Some (v, w') ->
    trace w' = trace w ++ new ->
    forall pre ev post e,
      new = pre ++ ev :: post ->
      failureOf ev = Some (Inner e) -> is409 e = true ->
      rerunsAfter fuel w w' pre ev post.
Proof.
  induction fuel as [|fuel IH]; intros w w' v new Hv Ht pre ev post e Heq Hf He.
  - cbn in Hv. injection Hv as <- <-.
    rewrite <- (app_nil_r (trace w)) in Ht at 1.
    apply app_inv_head in Ht. subst new. destruct pre; discriminate Heq.
  - rewrite trackGitChange_S in Hv.
    destruct (attempt_shape w) as (v0 & w0 & new0 & Hv0 & Ht0 & Hs0).
    destruct (trackGitChange 1 w) as [[] wA | e0 wA | wA] eqn:H1;
      cbn [verdictOf] in Hv0; try discriminate Hv0; injection Hv0 as <- <-.
    + cbn [verdictOf] in Hv. injection Hv as <- <-.
      rewrite Ht0 in Ht. apply app_inv_head in Ht. subst new.
      pose proof (shape_failure Hs0 _ _ _ Heq) as Hsf.
      rewrite Hf, He in Hsf. destruct Hsf as [_ [=]].
    + destruct (run_shapes fuel wA) as (v2 & w2 & n2 & new' & Hv2 & Ht2 & _).
      rewrite Hv in Hv2. injection Hv2 as <- <-.
      rewrite Ht2, Ht0, <- app_assoc in Ht. apply app_inv_head in Ht. subst new.
      apply occurs_app in Heq as [(post1 & Heq & ->) | (pre2 & -> & Heq)].
      * pose proof (shape_failure Hs0 _ _ _ Heq) as Hsf.
        rewrite Hf, He in Hsf. destruct Hsf as [-> _].
        exists 0, wA, new'. split; [lia|]. split; [assumption|].
        split; [now rewrite Ht0, Heq|]. split; [reflexivity|].
        split; [intros n; cbn [Nat.add]; now rewrite (trackGitChange_S n), H1|].
        split; [|assumption].
        cbn [Nat.sub]. rewrite Nat.sub_0_r. now apply verdict_ends in Hv.
      * destruct (IH wA w' v new' Hv Ht2 pre2 ev post e Heq Hf He)
          as (k & w1 & post' & Hk & Hcut & Htr & Hpost & Hres & Hends & Htr').
        exists (S k), w1, post'. split; [lia|].
        split; [now rewrite (trackGitChange_S (S k)), H1|].
        split; [now rewrite Htr, Ht0, <- !app_assoc|].
        split; [assumption|].
        split; [intros n; cbn [Nat.add];
                rewrite (trackGitChange_S (S (k + n))), H1; apply Hres|].
        split; [exact Hends | assumption].
Qed.

(** *** The claims about [trackGitChange], for every host *)

Ltac firstAttempt fuel :=
  change (trackGitChange (S fuel)) with (trackGitChangeBody (trackGitChange fuel));
  unfold trackGitChangeBody; unfoldM.

(** C1, as the code has it.  In every run, returned or still retrying when
    the budget ends: a conflict on the remote write is followed at once by
    the log line and by a call of the procedure to itself, so that the rest
    of the run is the whole procedure, [trackGitChange], run again from the
    world in which the conflict was logged (the model cuts a budget of that
    many calls right there, and follows every larger one through the
    procedure from that world); this new attempt starts from the top (it
    asks git again before anything else); and every remote write, first or
    retried, comes right after a fetch and a write of the mirror in the same
    attempt: its text is the fetched text followed by the entry of the commit
    that this attempt read from git, and its expected version tag is the
    fetched one.  A conflict is an answer with status 409, and the entry of
    a commit is the text ["[" date "] " hash ": " message] and a line
    feed. *)
Theorem retry_restarts_from_top (fuel : nat) (w : World E) :
  exists w' new,
    ends (trackGitChange fuel w) w' /\
    trace w' = trace w ++ new /\ retriedWrite new /\ writesFromFetch new /\
    (forall pre o m d t e post,
        new = pre ++ CreateOrUpdate o m d t (Err e) :: post ->
        is409 e = true ->
        rerunsAfter fuel w w' pre (CreateOrUpdate o m d t (Err e)) post) /\
    (forall e, is409 e = true <-> status e = Some 409%N) /\
    (forall c : LatestCommit,
        logEntryOf c =
        js "[" ++ date c ++ js "] " ++ hash c ++ js ": " ++ message c ++ [10%N]).
Proof.
  destruct (run_shapes fuel w) as (v & w' & n & new & Hv & Ht & Hs & _).
  exists w', new. split; [now apply verdict_ends in Hv|].
  split; [assumption|]. split; [|split; [|split; [|split]]].
  - eapply shapes_retriedWrite; eassumption.
  - eapply shapes_writesFromFetch; eassumption.
  - intros pre o m d t e post Heq He.
    eapply conflict_reruns; try eassumption. reflexivity.
  - apply is409_status.
  - reflexivity.
Qed.

(** C2. A commit whose hash is in the ledger is skipped at once: the run
    returns after the two local reads of git, without a notification and
    without any call to the remote store, the disk or the workspace state
    (the host is where the two reads left it), and the ledger is as it
    was. *)
Theorem skip_processed_commit
        (fuel : nat) (w : World E) (path : jsstring) (rest : list jsstring)
        (c : LatestCommit) (e1 e2 : E) :
  workspace_workspaceFolders (host w) = Some (path :: rest) ->
  git_checkIsRepo path (host w) = (Ok true, e1) ->
  git_log path e1 = (Ok (Some c), e2) ->
  In (hash c) (processedCommits w) ->
  trackGitChange (S fuel) w =
  Return tt {| processedCommits := processedCommits w;
               host := e2;
               trace := trace w ++ [CheckIsRepo path (Ok true);
                                    GitLog path (Ok (Some c))] |}.
Proof.
  intros Hf Hc Hl Hin. apply has_In in Hin.
  firstAttempt fuel.
  rewrite Hf, Hc. unfoldM. rewrite Hl. unfoldM. rewrite Hin.
  now rewrite snoc_app.
Qed.

(** C3. In every run, returned or still retrying when the budget ends: a
    remote write that fails without a conflict is fatal (the error is logged
    and shown, nothing else follows and the run has returned), and the
    attempt in which it failed, the last one, has left the ledger as it
    found it; a hash is in the ledger after the run only if it was there
    before or the remote store accepted, in this run, a text ending with the
    entry of a commit of that hash; and a run in which no remote write was
    accepted leaves the ledger as it was. *)
Theorem ledger_recorded_after_write (fuel : nat) (w : World E) :
  exists w' new,
    ends (trackGitChange fuel w) w' /\
    trace w' = trace w ++ new /\
    (forall pre o m d t e post,
        new = pre ++ CreateOrUpdate o m d t (Err e) :: post ->
        is409 e = false ->
        post = fatal e /\
        trackGitChange fuel w = Return tt w' /\
        exists k w1,
          trackGitChange k w = OutOfFuel w1 /\
          trackGitChange 1 w1 = Return tt w' /\
          processedCommits w' = processedCommits w1) /\
    recordedAfterWrite (processedCommits w) new (processedCommits w') /\
    ((forall o m d t, ~ In (CreateOrUpdate o m d t (Ok tt)) new) ->
     processedCommits w' = processedCommits w).
Proof.
  destruct (run_shapes fuel w) as (v & w' & n & new & Hv & Ht & Hs & _).
  apply verdict_ends in Hv as (Hends & Hstop & _).
  exists w', new. split; [assumption|]. split; [assumption|].
  split; [|split].
  - intros pre o m d t e post Heq He.
    destruct (shapes_fatalWrite Hs _ _ _ _ _ _ _ Heq He) as [Hpost ->].
    specialize (Hstop eq_refl).
    split; [assumption|]. split; [assumption|].
    destruct (last_attempt _ _ Hstop) as (k & w1 & _ & Hcut & Hlast).
    exists k, w1. split; [assumption|]. split; [assumption|].
    destruct (run_shapes k w) as (v1 & w2 & n1 & new1 & Hv1 & Ht1 & Hs1 & _).
    rewrite Hcut in Hv1. injection Hv1 as <- <-.
    destruct (attempt_shape w1) as (v2 & w2 & new2 & Hv2 & Ht2 & Hs2).
    rewrite Hlast in Hv2. injection Hv2 as <- <-.
    rewrite Ht1, <- app_assoc in Ht2. rewrite Ht in Ht2.
    apply app_inv_head in Ht2. rewrite Ht2 in Heq.
    apply occurs_app in Heq as [(post1 & Heq & _) | (pre2 & _ & Heq)].
    + destruct (shapes_fatalWrite Hs1 _ _ _ _ _ _ _ Heq He) as [_ [=]].
    + pose proof (shape_afterPut Hs2 _ _ _ _ _ _ _ Heq) as Hp. cbn in Hp.
      tauto.
  - eapply shapes_recorded; eassumption.
  - eapply shapes_unchanged; eassumption.
Qed.

(** C4, as the code has it.  There is no cap and no delay: under every
    budget the run has retried once for each answer with status 409 that it
    got; a run that the budget cuts has used the whole budget on retries;
    and a run that returns after [n] retries, whatever [n], returns with
    every budget above [n] and with no budget up to [n]. *)
Theorem retry_per_conflict (fuel : nat) (w : World E) :
  exists w' new,
    ends (trackGitChange fuel w) w' /\
    trace w' = trace w ++ new /\
    count isRetryLog new = count conflictAnswer new /\
    (trackGitChange fuel w = OutOfFuel w' -> count isRetryLog new = fuel) /\
    (trackGitChange fuel w = Return tt w' ->
     (forall fuel', count isRetryLog new < fuel' ->
                    trackGitChange fuel' w = Return tt w') /\
     (forall fuel', fuel' <= count isRetryLog new ->
                    exists w1, trackGitChange fuel' w = OutOfFuel w1)).
Proof.
  destruct (run_shapes fuel w) as (v & w' & n & new & Hv & Ht & Hs & Hn).
  destruct (shapes_counts Hs) as [Hc1 Hc2].
  apply verdict_ends in Hv as (Hends & _ & _ & Hret & Hcut).
  exists w', new. split; [assumption|]. split; [assumption|].
  rewrite Hc1, Hc2. split; [reflexivity|]. split.
  - intros Hr. rewrite (Hcut Hr) in Hn. assumption.
  - intros Hr. rewrite (Hret Hr) in Hn. destruct Hn as [_ Hmin]. split.
    + intros fuel' Hlt. eapply run_enough; [exact Hmin | lia].
    + intros fuel' Hle.
      destruct (run_shapes fuel' w) as (v1 & w1 & n1 & new1 & Hv1 & Ht1 & Hs1 & Hn1).
      apply verdict_ends in Hv1 as (_ & _ & Hagain & _ & _).
      destruct v1; [|exists w1; now apply Hagain].
      exfalso. destruct Hn1 as [Hlt1 Hmin1].
      apply (run_enough _ (fuel' := S n)) in Hmin1; [|lia].
      assert (w1 = w') as -> by congruence.
      rewrite Ht in Ht1. apply app_inv_head in Ht1. subst new1.
      destruct (shapes_counts Hs1) as [_ Hc2']. lia.
Qed.

(** C5, as the code has it.  The ledger only ever grows, in a run of
    [trackGitChange] and in a load; after every accepted remote write the
    program does hand the whole ledger to the editor's workspace state; and
    what a load adds comes from the text that [repos.getContent] returned in
    that load, parsed again, and from nowhere else (the host has no call
    that reads the workspace state back). *)
Theorem ledger_grows_and_is_stored (fuel : nat) (w w0 : World E) :
  (exists w' new,
      ends (trackGitChange fuel w) w' /\
      trace w' = trace w ++ new /\
      extends (processedCommits w) (processedCommits w') /\
      persistedAfterWrite (processedCommits w) new (processedCommits w')) /\
  (exists w0' new0,
      loadProcessedCommits w0 = Return tt w0' /\
      trace w0' = trace w0 ++ new0 /\
      extends (processedCommits w0) (processedCommits w0') /\
      forall h, In h (processedCommits w0') ->
                In h (processedCommits w0) \/
                exists o text tag,
                  In (GetContent o (Ok {| content := Some text; sha := tag |}))
                     new0 /\
                  In h (parseCommits text)).
Proof.
  split.
  - destruct (run_shapes fuel w) as (v & w' & n & new & Hv & Ht & Hs & _).
    exists w', new. split; [now apply verdict_ends in Hv|].
    split; [assumption|]. split.
    + eapply shapes_extends; eassumption.
    + eapply shapes_persisted; eassumption.
  - destruct (load_returns w0) as (w1 & new0 & Hl & Ht & Hs).
    exists w1, new0. split; [assumption|]. split; [assumption|].
    destruct Hs as [Hs | (o & text & tag & Hin & Hs)]; rewrite Hs.
    + split; [apply extends_refl | now left].
    + split; [apply addAll_extends|].
      intros h Hh. apply In_addAll in Hh as [Hh | Hh]; [now left|].
      right. now exists o, text, tag.
Qed.

(** C6, as the code has it.  In every run, returned or still retrying when
    the budget ends, the mirror file is written as soon as the fetch of an
    attempt is done (a file, or none) and before the remote write is issued:
    every write of the mirror comes right after a fetch and holds the
    fetched text followed by the new entry, every fetch that is done is
    followed by such a write, and every remote write, accepted or not, comes
    right after a write of the mirror with the same text. *)
Theorem mirror_written_after_fetch (fuel : nat) (w : World E) :
  exists w' new,
    ends (trackGitChange fuel w) w' /\
    trace w' = trace w ++ new /\
    mirrorAfterFetch new /\
    mirrorFollowsFetch new /\
    (forall pre o m d t r post,
        new = pre ++ CreateOrUpdate o m d t r :: post ->
        exists pre', pre = pre' ++ [WriteFileSync d (Ok tt)]).
Proof.
  destruct (run_shapes fuel w) as (v & w' & n & new & Hv & Ht & Hs & _).
  exists w', new. split; [now apply verdict_ends in Hv|].
  split; [assumption|]. split; [|split].
  - eapply shapes_mirrorAfterFetch; eassumption.
  - eapply shapes_mirrorFollowsFetch; eassumption.
  - intros pre o m d t r post Heq.
    destruct (shapes_writesFromFetch Hs _ _ _ _ _ _ _ Heq)
      as (pre' & p & c & r4 & -> & _).
    exists (pre' ++ [GitLog p (Ok (Some c)); GetAuthenticated (Ok o);
                     GetContent o r4]).
    now rewrite <- app_assoc.
Qed.

(** C7. Whatever text the remote file holds, the load returns, and the
    ledger then holds what it held and the hashes of the lines that match:
    a line matches when it reads [.. "[" stamp "] " hash ":" ..] with no
    line terminator in stamp and hash, its hash stands between the ["] "]
    and the next [":"], and every other line is skipped.  On the sample
    text and an empty ledger the result is exactly [abc123].

    The lines are the pieces of the text between its line feeds, each
    parsed by itself.  Of the ways in which a line can match, the first is
    taken: a line that holds no bracket before its ["[" stamp "] " hash ":"],
    no ["] "] in the stamp and no colon in the hash gives that hash whatever
    follows, and on a line without line terminator every hash that is read
    is read so (the line terminators being the code units 10, 13, 8232
    and 8233).  The ledger is extended, old hashes first, and gets no
    hash twice; a text of two entries gives their two hashes, in order. *)
Theorem load_parses_matching_lines
        (w : World E) (user text : jsstring) (tag : option jsstring)
        (e1 e2 : E) :
  users_getAuthenticated (host w) = (Ok user, e1) ->
  repos_getContent user e1 = (Ok {| content := Some text; sha := tag |}, e2) ->
  exists w',
    loadProcessedCommits w = Return tt w' /\
    (forall h, In h (processedCommits w') <->
               In h (processedCommits w) \/
               exists line, In line (split LF text) /\ hashOfLine line = Some h) /\
    (forall line h,
        hashOfLine line = Some h ->
        exists pre stamp post,
          line = pre ++ js "[" ++ stamp ++ js "] " ++ h ++ js ":" ++ post /\
          ~ In 58%N h) /\
    (forall line,
        hashOfLine line <> None <->
        exists pre stamp h post,
          line = pre ++ js "[" ++ stamp ++ js "] " ++ h ++ js ":" ++ post /\
          noTerminator stamp /\ noTerminator h) /\
    (text = malformedSample -> processedCommits w = [] ->
     processedCommits w' = [js "abc123"]) /\
    (LF = 10%N /\
     (forall a b, split LF (a ++ 10%N :: b) = split LF a ++ split LF b) /\
     (forall l, ~ In 10%N l -> split LF l = [l]) /\
     (forall c, isLineTerminator c = true <->
                c = 10%N \/ c = 13%N \/ c = 8232%N \/ c = 8233%N)) /\
    (forall pre stamp h post,
        ~ In 91%N pre -> hasCloser stamp = false ->
        noTerminator stamp -> noTerminator h -> ~ In 58%N h ->
        hashOfLine (pre ++ js "[" ++ stamp ++ js "] " ++ h ++ js ":" ++ post)
        = Some h) /\
    (forall line h,
        noTerminator line -> hashOfLine line = Some h ->
        exists pre stamp post,
          line = pre ++ js "[" ++ stamp ++ js "] " ++ h ++ js ":" ++ post /\
          ~ In 91%N pre /\ hasCloser stamp = false /\ ~ In 58%N h) /\
    extends (processedCommits w) (processedCommits w') /\
    (NoDup (processedCommits w) -> NoDup (processedCommits w')) /\
    (text = twoEntries -> processedCommits w = [] ->
     processedCommits w' = [js "abc123"; js "def456"]).
Proof.
  intros Hu Hg. unfold loadProcessedCommits. unfoldM.
  rewrite Hu. unfoldM. rewrite Hg. unfoldM.
  eexists. split; [reflexivity|]. cbn [processedCommits].
  split; [|split; [|split; [|split; [|split; [|split; [|split; [|split;
    [|split]]]]]]]].
  - intros h. split.
    + intros Hin. apply In_addAll in Hin as [Hin | Hin]; [now left|].
      right. now apply In_parseCommits.
    + intros [Hin | Hin]; apply In_addAll; [now left|].
      right. now apply In_parseCommits.
  - intros line h Hh.
    apply hashOfLine_sound in Hh as (pre & stamp & post & -> & _ & _ & Hc).
    now exists pre, stamp, post.
  - intros line. split.
    + intros Hm. destruct (hashOfLine line) as [h|] eqn:Hh; [|congruence].
      apply hashOfLine_sound in Hh as (pre & stamp & post & -> & H1 & H2 & _).
      now exists pre, stamp, h, post.
    + intros (pre & stamp & h & post & -> & H1 & H2).
      now apply hashOfLine_complete.
  - intros -> ->. reflexivity.
  - split; [reflexivity|]. split; [|split].
    + intros a b. apply (split_app LF).
    + intros l Hl. now apply (@split_line LF).
    + apply isLineTerminator_units.
  - intros pre stamp h post. apply hashOfLine_value_after.
  - intros line h. apply hashOfLine_plain.
  - apply addAll_extends.
  - apply addAll_NoDup.
  - intros -> ->. reflexivity.
Qed.

(** C8. When [repos.getContent] answers 404 the text is taken as empty.
    The entry of a commit is the text ["[" date "] " hash ": " message]
    and a line feed.  In every run, returned or still retrying when the
    budget ends, an answer 404 is followed by the write of the one entry of
    the commit to the mirror and then by a remote write of that entry with
    the message 'Create git.trackr.log' and no expected version tag, after
    which, when the store accepts it, the hash is in the ledger.  In
    particular, when the store and the host accept every call, the run is as
    spelled out, the text of the file that is created being that one
    line. *)
Theorem fresh_remote_file (fuel : nat) (w : World E) :
  (forall c : LatestCommit,
      logEntryOf c =
      js "[" ++ date c ++ js "] " ++ hash c ++ js ": " ++ message c ++ [10%N]) /\
  (exists w' new,
      ends (trackGitChange fuel w) w' /\
      trace w' = trace w ++ new /\
      createsWhenNotFound new (processedCommits w')) /\
  (forall e, is404 e = true <-> status e = Some 404%N) /\
  (forall (path : jsstring) (rest : list jsstring) (c : LatestCommit)
          (user entry : jsstring) (notFound : JsError)
          (e1 e2 e3 e4 e5 e6 e7 : E),
      entry =
      js "[" ++ date c ++ js "] " ++ hash c ++ js ": " ++ message c ++ [10%N] ->
      workspace_workspaceFolders (host w) = Some (path :: rest) ->
      git_checkIsRepo path (host w) = (Ok true, e1) ->
      git_log path e1 = (Ok (Some c), e2) ->
      ~ In (hash c) (processedCommits w) ->
      users_getAuthenticated e2 = (Ok user, e3) ->
      repos_getContent user e3 = (Err notFound, e4) ->
      status notFound = Some 404%N ->
      fs_writeFileSync entry e4 = (Ok tt, e5) ->
      repos_createOrUpdateFileContents
        user (js "Create git.trackr.log") entry None e5 = (Ok tt, e6) ->
      workspaceState_update (processedCommits w ++ [hash c]) e6 = (Ok tt, e7) ->
      trackGitChange (S fuel) w =
      Return tt
        {| processedCommits := processedCommits w ++ [hash c];
           host := e7;
           trace :=
             trace w ++
             [CheckIsRepo path (Ok true); GitLog path (Ok (Some c));
              GetAuthenticated (Ok user); GetContent user (Err notFound);
              WriteFileSync entry (Ok tt);
              CreateOrUpdate user (js "Create git.trackr.log") entry
                None (Ok tt);
              WorkspaceStateUpdate (processedCommits w ++ [hash c]) (Ok tt);
              ShowInformationMessage (js "Tracked commit: " ++ message c)] |}).
Proof.
  split; [reflexivity|]. split; [|split].
  - destruct (run_shapes fuel w) as (v & w' & n & new & Hv & Ht & Hs & _).
    exists w', new. split; [now apply verdict_ends in Hv|].
    split; [assumption | eapply shapes_createsWhenNotFound; eassumption].
  - apply is404_status.
  - intros path rest c user entry notFound e1 e2 e3 e4 e5 e6 e7
           Hentry Hf Hc Hl Hnew Hu Hg H404 Hm Hp Hs.
    assert (Hlit : entry = logEntryOf c) by (rewrite Hentry; reflexivity).
    clear Hentry. subst entry.
    apply has_false in Hnew.
    assert (Hadd : JsSet.add (hash c) (processedCommits w)
                   = processedCommits w ++ [hash c])
      by (unfold JsSet.add; now rewrite Hnew).
    assert (Hnf : is404 notFound = true) by (unfold is404; now rewrite H404).
    firstAttempt fuel.
    rewrite Hf, Hc. unfoldM. rewrite Hl. unfoldM. rewrite Hnew. unfoldM.
    rewrite Hu. unfoldM. rewrite Hg. unfoldM. rewrite Hnf. unfoldM. cbn [app].
    change (commitMessage None) with (js "Create git.trackr.log").
    rewrite Hm. unfoldM. rewrite Hp. unfoldM.
    unfold JsSet.toArray. rewrite Hadd, Hs. unfoldM.
    now rewrite !snoc_app.
Qed.

(** C10. A load never raises.  Whatever the two remote reads answer, it
    returns; the ledger it leaves extends the one it found (nothing is
    removed or replaced); and when one of the reads fails, with 404 or
    with anything else, the ledger is left as it was. *)
Theorem load_never_raises (w : World E) :
  exists w',
    loadProcessedCommits w = Return tt w' /\
    extends (processedCommits w) (processedCommits w') /\
    (forall e e1,
        users_getAuthenticated (host w) = (Err e, e1) ->
        processedCommits w' = processedCommits w) /\
    (forall user e1 e e2,
        users_getAuthenticated (host w) = (Ok user, e1) ->
        repos_getContent user e1 = (Err e, e2) ->
        processedCommits w' = processedCommits w).
Proof.
  unfold loadProcessedCommits. unfoldM.
  repeat (caseStep; unfoldM).
  all: eexists; (split; [reflexivity|]); cbn [processedCommits].
  all: split; [first [apply extends_refl | apply addAll_extends]|].
  all: subst.
  all: split; [intros ? ? Ha | intros ? ? ? ? Ha Hb]; try reflexivity.
  all: first [discriminate Ha | injection Ha as <- <-].
  all: match goal with
       | Hx : repos_getContent _ _ = _ |- _ =>
           rewrite Hx in Hb; discriminate Hb
       end.
Qed.

(** *** Failures and reports, for every host *)

Lemma shapes_failuresReported v n s new s' :
  Shapes v n s new s' -> failuresReported new.
Proof.
  induction 1 as [s | s new s' Hs | v n s new s1 new' s' Hs Hss IH];
    intros pre ev post Heq.
  - destruct pre; discriminate.
  - pose proof (shape_failure Hs _ _ _ Heq) as Hf.
    destruct (failureOf ev) as [[e|e]|]; [tauto | | exact I].
    destruct (is409 e); [destruct Hf as [_ [=]] | tauto].
  - apply occurs_app in Heq as [(post1 & Heq & ->) | (pre2 & -> & Heq)].
    + pose proof (shape_failure Hs _ _ _ Heq) as Hf.
      destruct (failureOf ev) as [[e|e]|]; [destruct Hf as [_ [=]] | | exact I].
      destruct (is409 e); [|destruct Hf as [_ [=]]].
      destruct Hf as [-> _]. exists new'. split; [reflexivity|].
      eapply shapes_startsAtTop; eassumption.
    + apply (IH _ _ _ Heq).
Qed.

Lemma shape_report s new v s' :
  Shape s new v s' ->
  forall pre t post, new = pre ++ ShowErrorMessage t :: post ->
    v = Stop /\ post = [] /\
    exists pre' ev e,
      pre = pre' ++ [ev; ConsoleError (js "Error tracking git change:") e] /\
      (failureOf ev = Some (Outer e) \/
       failureOf ev = Some (Inner e) /\ is409 e = false) /\
      t = js "Failed to track git change: " ++
          match errorMessage e with
          | Some m => m
          | None => js "Unknown error occurred"
          end.
Proof.
  intros Hs pre t post Heq. shapeCases Hs; walk Heq.
  all: injection Heq as <- <-.
  all: split; [reflexivity|]; split; [reflexivity|].
  all: match goal with
       | |- exists pre' ev e, ?l = _ /\ _ =>
           exists (firstn (List.length l - 2) l)
       end; cbn [List.length Nat.sub firstn];
       eexists _, _; split; [reflexivity|]; split; [|reflexivity].
  all: cbn [failureOf].
  all: try match goal with
       | Hc : is404 _ = false |- _ => rewrite Hc
       end.
  all: first [left; reflexivity | right; split; [reflexivity | assumption]].
Qed.

Lemma shapes_report v n s new s' :
  Shapes v n s new s' ->
  reportFollowsFailure new /\
  ((exists pre t post, new = pre ++ ShowErrorMessage t :: post) -> v = Stop).
Proof.
  induction 1 as [s | s new s' Hs | v n s new s1 new' s' Hs Hss [IH IHv]].
  - split; [intros [|? ?]; discriminate | intros ([|? ?] & ? & ? & [=])].
  - split.
    + intros pre t post Heq. now apply (shape_report Hs) in Heq.
    + reflexivity.
  - split.
    + intros pre t post Heq.
      apply occurs_app in Heq as [(post1 & Heq & ->) | (pre2 & -> & Heq)].
      * apply (shape_report Hs) in Heq as ([=] & _).
      * destruct (IH _ _ _ Heq) as (-> & pre' & ev & e & -> & Hf & ->).
        split; [reflexivity|].
        exists (new ++ pre'), ev, e. now rewrite app_assoc.
    + intros (pre & t & post & Heq).
      apply occurs_app in Heq as [(post1 & Heq & ->) | (pre2 & -> & Heq)].
      * apply (shape_report Hs) in Heq as ([=] & _).
      * apply IHv. eauto.
Qed.

(** X5. In every run, returned or still retrying when the budget ends, a
    call that fails is followed by the line on the console and the error
    message, and by nothing else; only a failure with status 409 of a call
    inside the inner [try] is followed by the log line and a new attempt
    instead: the procedure calls itself, and the rest of the run is
    [trackGitChange] run again from the world in which the conflict was
    logged.  An error message is shown only so: as the last thing of a
    run that has returned, with the message of the error, or 'Unknown error
    occurred' when it has none. *)
Theorem failures_reported_once (fuel : nat) (w : World E) :
  exists w' new,
    ends (trackGitChange fuel w) w' /\
    trace w' = trace w ++ new /\
    failuresReported new /\
    reportFollowsFailure new /\
    ((exists pre t post, new = pre ++ ShowErrorMessage t :: post) ->
     trackGitChange fuel w = Return tt w') /\
    (forall pre ev post e,
        new = pre ++ ev :: post ->
        failureOf ev = Some (Inner e) -> is409 e = true ->
        rerunsAfter fuel w w' pre ev post) /\
    (forall e, is409 e = true <-> status e = Some 409%N) /\
    (forall e, is404 e = true <-> status e = Some 404%N).
Proof.
  destruct (run_shapes fuel w) as (v & w' & n & new & Hv & Ht & Hs & _).
  pose proof Hv as Hv'.
  apply verdict_ends in Hv as (Hends & Hstop & _).
  exists w', new. split; [assumption|]. split; [assumption|].
  split; [eapply shapes_failuresReported; eassumption|].
  destruct (shapes_report Hs) as [Hr Hvs]. split; [assumption|].
  split; [|split; [|split]].
  - intros Hshown. apply Hstop. now apply Hvs.
  - intros pre ev post e Heq Hf He.
    eapply conflict_reruns; eassumption.
  - apply is409_status.
  - apply is404_status.
Qed.

(** *** What a run does beyond the local repository *)

Lemma shape_afterFreshCommit s new v s' :
  Shape s new v s' -> afterFreshCommit s new.
Proof.
  intros Hs pre ev post Heq Hb. shapeCases Hs; walk Heq.
  all: injection Heq as <- <-.
  all: try discriminate Hb.
  all: eexists [], _, _, _; split; [reflexivity|];
    split; [reflexivity | now apply has_false].
Qed.

Lemma shapes_afterFreshCommit v n s new s' :
  Shapes v n s new s' -> afterFreshCommit s new.
Proof.
  induction 1 as [s | s new s' Hs | v n s new s1 new' s' Hs Hss IH];
    intros pre ev post Heq Hb.
  - destruct pre; discriminate.
  - eapply shape_afterFreshCommit; eassumption.
  - apply occurs_app in Heq as [(post1 & Heq & ->) | (pre2 & -> & Heq)].
    + eapply shape_afterFreshCommit; eassumption.
    + destruct (IH _ _ _ Heq Hb) as (pre' & p & c & mid & -> & Hmid & Hc).
      exists (new ++ pre'), p, c, mid.
      split; [now rewrite app_assoc|]. split; [assumption|].
      intros Hin. apply Hc. destruct (shape_extends Hs) as [more ->].
      apply in_or_app. now left.
Qed.

(** X6. In every run, returned or still retrying when the budget ends, a
    call to GitHub, to the disk or to the workspace state is made only in an
    attempt that has found a repository and read a latest commit whose hash
    was not in the ledger: nothing but git is asked for a folder that is no
    repository, for a repository without commit, and for a commit that is
    known. *)
Theorem remote_only_for_fresh_commit (fuel : nat) (w : World E) :
  exists w' new,
    ends (trackGitChange fuel w) w' /\
    trace w' = trace w ++ new /\
    afterFreshCommit (processedCommits w) new.
Proof.
  destruct (run_shapes fuel w) as (v & w' & n & new & Hv & Ht & Hs & _).
  exists w', new. split; [now apply verdict_ends in Hv|].
  split; [assumption | eapply shapes_afterFreshCommit; eassumption].
Qed.

Lemma shape_announced s new v s' :
  Shape s new v s' ->
  (forall pre t post, new = pre ++ ShowInformationMessage t :: post ->
     v = Stop /\ post = [] /\
     exists pre' o m c base tag,
       pre = pre' ++ [CreateOrUpdate o m (base ++ logEntryOf c) tag (Ok tt);
                      WorkspaceStateUpdate s' (Ok tt)] /\
       t = js "Tracked commit: " ++ message c /\ In (hash c) s') /\
  (forall pre u post, new = pre ++ WorkspaceStateUpdate u (Ok tt) :: post ->
     v = Stop /\ u = s' /\
     exists c, post = [ShowInformationMessage (js "Tracked commit: " ++ message c)]).
Proof.
  intros Hs. split.
  - intros pre t post Heq. shapeCases Hs; walk Heq.
    injection Heq as <- <-.
    split; [reflexivity|]. split; [reflexivity|].
    match goal with
    | |- exists pre' o m c base tag, ?l = _ /\ _ =>
        exists (firstn (List.length l - 2) l)
    end; cbn [List.length Nat.sub firstn].
    eexists _, _, _, _, _. split; [reflexivity|]. split; [reflexivity|].
    apply In_add. now left.
  - intros pre u post Heq. shapeCases Hs; walk Heq.
    all: injection Heq as <- <-.
    split; [reflexivity|]. split; [reflexivity|]. eexists. reflexivity.
Qed.

Lemma shapes_announced v n s new s' :
  Shapes v n s new s' ->
  announcedAfterWrite new s' /\
  ((exists pre t post, new = pre ++ ShowInformationMessage t :: post) -> v = Stop).
Proof.
  induction 1 as [s | s new s' Hs | v n s new s1 new' s' Hs Hss [[IH1 IH2] IHv]].
  - split; [split|].
    + intros [|? ?]; discriminate.
    + intros [|? ?]; discriminate.
    + intros ([|? ?] & ? & ? & [=]).
  - destruct (shape_announced Hs) as [H1 H2]. split; [split|].
    + intros pre t post Heq. now apply H1 in Heq.
    + intros pre u post Heq. now apply H2 in Heq.
    + reflexivity.
  - destruct (shape_announced Hs) as [H1 H2]. split; [split|].
    + intros pre t post Heq.
      apply occurs_app in Heq as [(post1 & Heq & ->) | (pre2 & -> & Heq)].
      * apply H1 in Heq as ([=] & _).
      * destruct (IH1 _ _ _ Heq)
          as (-> & pre' & o & m & c & base & tag & -> & -> & Hin).
        split; [reflexivity|].
        exists (new ++ pre'), o, m, c, base, tag. now rewrite app_assoc.
    + intros pre u post Heq.
      apply occurs_app in Heq as [(post1 & Heq & ->) | (pre2 & -> & Heq)].
      * apply H2 in Heq as ([=] & _).
      * now apply IH2 in Heq.
    + intros (pre & t & post & Heq).
      apply occurs_app in Heq as [(post1 & Heq & ->) | (pre2 & -> & Heq)].
      * apply H1 in Heq as ([=] & _).
      * apply IHv. eauto.
Qed.

(** X7. In every run, returned or still retrying when the budget ends, the
    commit is announced ('Tracked commit: ' and its message) only as the
    last thing of a run that has returned, right after the remote store
    accepted a text that ends with its entry and the workspace state took
    the ledger, which holds its hash; and whenever the workspace state has
    taken the ledger, the announcement follows and ends the run. *)
Theorem announced_after_write (fuel : nat) (w : World E) :
  exists w' new,
    ends (trackGitChange fuel w) w' /\
    trace w' = trace w ++ new /\
    announcedAfterWrite new (processedCommits w') /\
    ((exists pre t post, new = pre ++ ShowInformationMessage t :: post) ->
     trackGitChange fuel w = Return tt w').
Proof.
  destruct (run_shapes fuel w) as (v & w' & n & new & Hv & Ht & Hs & _).
  apply verdict_ends in Hv as (Hends & Hstop & _).
  exists w', new. split; [assumption|]. split; [assumption|].
  destruct (shapes_announced Hs) as [Ha Hv]. split; [assumption|].
  intros Hshown. apply Hstop. now apply Hv.
Qed.

(** X8. Nothing to track.  Without a workspace folder the run returns at
    once and nothing has happened; in a folder that is no repository it
    returns after the one question to git, and in a repository without
    commit after the two: nothing is shown, nothing is asked of GitHub, the
    disk or the workspace state, and the ledger is as it was. *)
Theorem nothing_to_track (fuel : nat) (w : World E) :
  (workspace_workspaceFolders (host w) = None \/
   workspace_workspaceFolders (host w) = Some [] ->
   trackGitChange (S fuel) w = Return tt w) /\
  (forall (path : jsstring) (rest : list jsstring) (e1 : E),
      workspace_workspaceFolders (host w) = Some (path :: rest) ->
      git_checkIsRepo path (host w) = (Ok false, e1) ->
      trackGitChange (S fuel) w =
      Return tt {| processedCommits := processedCommits w;
                   host := e1;
                   trace := trace w ++ [CheckIsRepo path (Ok false)] |}) /\
  (forall (path : jsstring) (rest : list jsstring) (e1 e2 : E),
      workspace_workspaceFolders (host w) = Some (path :: rest) ->
      git_checkIsRepo path (host w) = (Ok true, e1) ->
      git_log path e1 = (Ok None, e2) ->
      trackGitChange (S fuel) w =
      Return tt {| processedCommits := processedCommits w;
                   host := e2;
                   trace := trace w ++ [CheckIsRepo path (Ok true);
                                        GitLog path (Ok None)] |}).
Proof.
  split; [|split].
  - intros [Hf | Hf]; firstAttempt fuel; now rewrite Hf.
  - intros path rest e1 Hf Hc. firstAttempt fuel.
    now rewrite Hf, Hc.
  - intros path rest e1 e2 Hf Hc Hl. firstAttempt fuel.
    rewrite Hf, Hc. unfoldM. rewrite Hl. unfoldM. now rewrite snoc_app.
Qed.

(** One attempt on a commit that the ledger holds. *)
Lemma known_commit_skipped
      (fuel : nat) (w : World E) (path : jsstring) (rest : list jsstring)
      (c : LatestCommit) (e1 e2 : E) :
  workspace_workspaceFolders (host w) = Some (path :: rest) ->
  git_checkIsRepo path (host w) = (Ok true, e1) ->
  git_log path e1 = (Ok (Some c), e2) ->
  JsSet.has (hash c) (processedCommits w) = true ->
  trackGitChange (S fuel) w =
  Return tt {| processedCommits := processedCommits w;
               host := e2;
               trace := trace w ++ [CheckIsRepo path (Ok true);
                                    GitLog path (Ok (Some c))] |}.
Proof.
  intros Hf Hc Hl Hin. firstAttempt fuel.
  rewrite Hf, Hc. unfoldM. rewrite Hl. unfoldM. rewrite Hin.
  now rewrite snoc_app.
Qed.

(** One attempt in which every call is answered. *)
Lemma attempt_tracked
      (w : World E) (path : jsstring) (rest : list jsstring)
      (c : LatestCommit) (user : jsstring) (r4 : Result Existing)
      (e1 e2 e3 e4 e5 e6 e7 : E) :
  workspace_workspaceFolders (host w) = Some (path :: rest) ->
  git_checkIsRepo path (host w) = (Ok true, e1) ->
  git_log path e1 = (Ok (Some c), e2) ->
  JsSet.has (hash c) (processedCommits w) = false ->
  users_getAuthenticated e2 = (Ok user, e3) ->
  repos_getContent user e3 = (r4, e4) ->
  fetched r4 ->
  fs_writeFileSync (fst (basis r4) ++ logEntryOf c) e4 = (Ok tt, e5) ->
  repos_createOrUpdateFileContents
    user (commitMessage (snd (basis r4))) (fst (basis r4) ++ logEntryOf c)
    (snd (basis r4)) e5 = (Ok tt, e6) ->
  workspaceState_update (processedCommits w ++ [hash c]) e6 = (Ok tt, e7) ->
  trackGitChange 1 w =
  Return tt
    {| processedCommits := processedCommits w ++ [hash c];
       host := e7;
       trace := trace w ++ upToPut path c user r4 (Ok tt) ++
                [WorkspaceStateUpdate (processedCommits w ++ [hash c]) (Ok tt);
                 ShowInformationMessage (js "Tracked commit: " ++ message c)] |}.
Proof.
  intros Hf Hc Hl Hnew Hu Hg Hr4 Hm Hp Hs.
  assert (Hadd : JsSet.add (hash c) (processedCommits w)
                 = processedCommits w ++ [hash c])
    by (unfold JsSet.add; now rewrite Hnew).
  cbn [trackGitChange]. unfold trackGitChangeBody. unfoldM.
  rewrite Hf, Hc. unfoldM. rewrite Hl. unfoldM. rewrite Hnew. unfoldM.
  rewrite Hu. unfoldM. rewrite Hg. unfoldM.
  destruct r4 as [[[text|] [tag|]] | e404]; cbn [basis fetched content sha fst snd] in *;
    unfoldM; try rewrite Hr4; unfoldM.
  all: rewrite Hm; unfoldM; rewrite Hp; unfoldM.
  all: unfold JsSet.toArray; rewrite Hadd, Hs; unfoldM.
  all: unfold upToPut, upToFetch;
    cbn [basis content sha fst snd app]; now rewrite !snoc_app.
Qed.

(** A load that fetches a file. *)
Lemma load_fetched
      (w : World E) (user text : jsstring) (tag : option jsstring) (e1 e2 : E) :
  users_getAuthenticated (host w) = (Ok user, e1) ->
  repos_getContent user e1 = (Ok {| content := Some text; sha := tag |}, e2) ->
  loadProcessedCommits w =
  Return tt
    {| processedCommits := JsSet.addAll (parseCommits text) (processedCommits w);
       host := e2;
       trace := trace w ++
                [GetAuthenticated (Ok user);
                 GetContent user (Ok {| content := Some text; sha := tag |})] |}.
Proof.
  intros Hu Hg. unfold loadProcessedCommits. unfoldM.
  rewrite Hu. unfoldM. rewrite Hg. unfoldM. now rewrite snoc_app.
Qed.

(** *** The size of the ledger *)

Lemma shape_length s new v s' :
  Shape s new v s' ->
  List.length s' = List.length s + count accepted new.
Proof.
  intros Hs. destruct Hs;
    unfold upToPut, upToFetch, fatal, conflictLog, count;
    cbn [app filter accepted List.length];
    try match goal with
      | Hh : JsSet.has _ _ = false |- context [JsSet.add _ _] =>
          unfold JsSet.add; rewrite Hh, length_app; cbn [List.length]
      end;
    lia.
Qed.

Lemma shapes_length v n s new s' :
  Shapes v n s new s' ->
  List.length s' = List.length s + count accepted new.
Proof.
  induction 1 as [s | s new s' Hs | v n s new s1 new' s' Hs _ IH].
  - cbn. lia.
  - eapply shape_length; eassumption.
  - apply shape_length in Hs. rewrite count_app. lia.
Qed.

(** X17. In every run, returned or still retrying when the budget ends, the
    ledger has grown by exactly one hash for each remote write that the
    store accepted, and it holds no hash twice if it held none twice
    before. *)
Theorem one_hash_per_accepted_write (fuel : nat) (w : World E) :
  exists w' new,
    ends (trackGitChange fuel w) w' /\
    trace w' = trace w ++ new /\
    List.length (processedCommits w') =
      List.length (processedCommits w) + count accepted new /\
    (NoDup (processedCommits w) -> NoDup (processedCommits w')).
Proof.
  destruct (run_shapes fuel w) as (v & w' & n & new & Hv & Ht & Hs & _).
  exists w', new. split; [now apply verdict_ends in Hv|].
  split; [assumption|]. split.
  - eapply shapes_length; eassumption.
  - eapply shapes_NoDup; eassumption.
Qed.

(** *** The failures of a load *)

(** X19. A load shows nothing to the user.  A call of it that fails with
    status 404, be it [users.getAuthenticated] or [repos.getContent], ends
    the load in silence; a call that fails otherwise is followed by one
    line on the console, which ends the load; and the console gets a line
    only so.  The ledger is as it was unless [repos.getContent] has
    answered with a content, whose hashes are then added. *)
Theorem load_failures_logged (w : World E) :
  exists w' new,
    loadProcessedCommits w = Return tt w' /\
    trace w' = trace w ++ new /\
    (forall t, ~ In (ShowErrorMessage t) new /\
               ~ In (ShowInformationMessage t) new) /\
    (forall pre ev post e,
        new = pre ++ ev :: post -> loadFailure ev = Some e ->
        post = if is404 e then [] else [loadErrorLog e]) /\
    (forall pre label e post,
        new = pre ++ ConsoleError label e :: post ->
        post = [] /\ ConsoleError label e = loadErrorLog e /\
        is404 e = false /\
        exists pre' ev, pre = pre' ++ [ev] /\ loadFailure ev = Some e) /\
    (processedCommits w' = processedCommits w \/
     exists o text tag,
       In (GetContent o (Ok {| content := Some text; sha := tag |})) new /\
       processedCommits w' =
       JsSet.addAll (parseCommits text) (processedCommits w)).
Proof.
  unfold loadProcessedCommits, loadErrorLog. unfoldM.
  repeat (caseStep; unfoldM).
  all: eexists _, _; (split; [reflexivity|]); cbn [trace processedCommits].
  all: rewrite ?snoc_app; (split; [reflexivity|]).
  all: split;
    [intros t; split; intros Hin; cbn [In] in Hin;
     repeat (destruct Hin as [Hin | Hin]; try discriminate Hin); contradiction|].
  all: split;
    [intros pre ev post err Heq Hev; walk Heq;
     injection Heq as <- <-; cbn [loadFailure] in Hev;
     try discriminate Hev; injection Hev as <-;
     repeat match goal with Hc : is404 _ = _ |- _ => rewrite Hc end;
     reflexivity|].
  all: split;
    [intros pre label err post Heq; walk Heq;
     injection Heq as <- <- <-;
     (split; [reflexivity|]); (split; [reflexivity|]);
     (split; [assumption|]);
     match goal with
     | |- exists pre' ev, ?l = _ /\ _ =>
         exists (firstn (List.length l - 1) l);
         cbn [List.length Nat.sub firstn]
     end; eexists; split; reflexivity|].
  all: try (now left).
  right. eexists _, _, _. split; [|reflexivity]. right. now left.
Qed.

End Runs.

(** ** Runs against the in-memory host *)

Lemma eqb_neq (a b : jsstring) : a <> b -> JsString.eqb a b = false.
Proof.
  intros Hne. unfold JsString.eqb. now destruct (list_eq_dec N.eq_dec a b).
Qed.

Lemma grown_differs (t x : jsstring) : x <> [] -> t <> t ++ x.
Proof.
  intros Hx Heq. apply (f_equal (@List.length N)) in Heq.
  rewrite length_app in Heq. destruct x; [congruence | cbn in Heq; lia].
Qed.

(** Under [contended] the remote text grows between the fetch and the remote
    write of every attempt: the write is refused and the attempt asks for
    another one. *)
Lemma contended_put_stale (c : LatestCommit) (user msg text T : jsstring)
      (f : Fake.State) :
  Fake.remote f = Some (T ++ Fake.elsewhere) ->
  @repos_createOrUpdateFileContents _ (Fake.fakeHost (Fake.contended c))
    user msg text (Some (Fake.tagOf T)) f
  = (Err Fake.conflict, Fake.arrive (Fake.contended c) f).
Proof.
  intros Hr.
  cbn [repos_createOrUpdateFileContents Fake.fakeHost].
  unfold Fake.serve, Fake.putFile.
  cbn [Fake.fault Fake.contended Fake.never Fake.arrive Fake.rival Fake.remote
       option_map Fake.sameTag].
  rewrite Hr. rewrite eqb_neq; [reflexivity|].
  unfold Fake.tagOf. intros Heq. apply app_inv_head in Heq.
  rewrite <- app_assoc in Heq. revert Heq. apply grown_differs. discriminate.
Qed.

Lemma contended_attempt (c : LatestCommit) (w : World Fake.State) :
  JsSet.has (hash c) (processedCommits w) = false ->
  exists w1,
    Fake.track (Fake.contended c) 1 w = OutOfFuel w1 /\
    processedCommits w1 = processedCommits w.
Proof.
  intros Hnew. eexists. split.
  - unfold Fake.track.
    eapply (@attempt_put_conflict _ (Fake.fakeHost (Fake.contended c)));
      try reflexivity; try assumption.
    + cbn [basis content sha fst snd]. apply contended_put_stale. reflexivity.
    + reflexivity.
  - reflexivity.
Qed.

Lemma contended_cut (c : LatestCommit) (fuel : nat) :
  forall w : World Fake.State,
    JsSet.has (hash c) (processedCommits w) = false ->
    exists w1,
      Fake.track (Fake.contended c) fuel w = OutOfFuel w1 /\
      processedCommits w1 = processedCommits w.
Proof.
  induction fuel as [|fuel IH]; intros w Hnew.
  - now exists w.
  - destruct (contended_attempt c w Hnew) as (w1 & H1 & Hs).
    destruct (IH w1) as (w2 & H2 & Hs2); [now rewrite Hs|].
    exists w2. split; [|congruence].
    unfold Fake.track in *. now rewrite trackGitChange_S, H1.
Qed.

(** C1, the claim as stated fails: another writer appends between the fetch
    and the remote write of the first attempt, which meets a conflict, and
    HEAD moves from [deadbeef] to [second] meanwhile; the retry reads git
    again and appends the entry of [second]; the entry of [deadbeef], the
    commit whose write met the conflict, is appended by no attempt. *)
Lemma retry_appends_other_commit :
  Fake.track (Fake.overtaken deadbeef second) 2 Fake.seeded
  = Return tt afterOvertaken /\
  filter Fake.isRemoteWrite (trace afterOvertaken) =
    [CreateOrUpdate (js "octocat") (js "Update git.trackr.log")
       (Fake.earlier ++ logEntryOf deadbeef)
       (Some (Fake.tagOf Fake.earlier)) (Err Fake.conflict);
     CreateOrUpdate (js "octocat") (js "Update git.trackr.log")
       (Fake.earlier ++ Fake.elsewhere ++ logEntryOf second)
       (Some (Fake.tagOf (Fake.earlier ++ Fake.elsewhere))) (Ok tt)] /\
  Fake.remote (host afterOvertaken)
  = Some (Fake.earlier ++ Fake.elsewhere ++ logEntryOf second) /\
  processedCommits afterOvertaken = [js "0a0a0a0a"; hash second].
Proof. vm_compute. repeat split. Qed.

(** C4, the claim as stated fails: while another writer keeps appending, no
    budget of attempts lets the run return, and no cap holds for the number
    of its retries. *)
Lemma retry_unbounded :
  (~ exists fuel w',
       Fake.track (Fake.contended deadbeef) fuel Fake.start = Return tt w') /\
  (~ exists cap,
       forall fuel w1,
         Fake.track (Fake.contended deadbeef) fuel Fake.start = OutOfFuel w1 ->
         count isRetryLog (trace w1) <= cap).
Proof.
  split.
  - intros (fuel & w' & Hrun).
    destruct (contended_cut deadbeef fuel Fake.start eq_refl) as (w1 & Hcut & _).
    congruence.
  - intros (cap & Hcap).
    destruct (contended_cut deadbeef (S cap) Fake.start eq_refl) as (w1 & Hcut & _).
    pose proof (Hcap _ _ Hcut) as Hle.
    apply cut_counts in Hcut as (new & Ht & _ & Hc).
    cbn [trace Fake.start app] in Ht. rewrite Ht, Hc in Hle. lia.
Qed.

(** C5, the claim as stated fails: after the scenario's run the editor's
    workspace state, a store that is not the remote log, holds the ledger. *)
Lemma ledger_stored_in_workspace :
  Fake.track (Fake.calm deadbeef) 1 Fake.start = Return tt afterCalm /\
  Fake.stored (host Fake.start) = None /\
  Fake.stored (host afterCalm) = Some (processedCommits afterCalm) /\
  processedCommits afterCalm = [js "deadbeef"].
Proof. vm_compute. repeat split. Qed.

(** C6, the claim as stated fails: the remote write is refused with status
    500, nothing is appended, and yet the mirror file has been written. *)
Lemma mirror_written_on_failure :
  Fake.track (Fake.brokenWrite deadbeef) 1 Fake.start = Return tt afterBrokenWrite /\
  filter Fake.isRemoteWrite (trace afterBrokenWrite) =
    [CreateOrUpdate (js "octocat") (js "Create git.trackr.log")
       (logEntryOf deadbeef) None (Err Fake.serverError)] /\
  Fake.remote (host afterBrokenWrite) = None /\
  Fake.mirror (host Fake.start) = None /\
  Fake.mirror (host afterBrokenWrite) = Some (logEntryOf deadbeef).
Proof. vm_compute. repeat split. Qed.

(** C9. The commit of the scenario against an empty remote store: the remote
    file holds exactly its entry and the ledger exactly its hash. *)
Theorem end_to_end_deadbeef :
  logEntryOf deadbeef = js "[2024-01-01T00:00:00Z] deadbeef: Initial commit" ++ nl /\
  forall fuel,
  exists w',
    Fake.track (Fake.calm deadbeef) (S fuel) Fake.start = Return tt w' /\
    Fake.remote (host w') =
      Some (js "[2024-01-01T00:00:00Z] deadbeef: Initial commit" ++ nl) /\
    processedCommits w' = [js "deadbeef"].
Proof.
  split; [reflexivity|]. intros fuel.
  exists (Fake.worldOf (Fake.track (Fake.calm deadbeef) 1 Fake.start)).
  split; [|split]; [|vm_compute; reflexivity..].
  unfold Fake.track. rewrite trackGitChange_S. vm_compute. reflexivity.
Qed.

(** ** The theorems at work on the scenarios *)

Lemma fresh_remote_file_witness :
  ~ In (js "deadbeef") (processedCommits Fake.start) /\
  Fake.remote (host Fake.start) = None /\
  Fake.track (Fake.calm deadbeef) 1 Fake.start = Return tt afterCalm /\
  Fake.remote (host afterCalm)
  = Some (js "[2024-01-01T00:00:00Z] deadbeef: Initial commit" ++ [10%N]) /\
  filter Fake.isRemoteWrite (trace afterCalm) =
    [CreateOrUpdate (js "octocat") (js "Create git.trackr.log")
       (js "[2024-01-01T00:00:00Z] deadbeef: Initial commit" ++ [10%N])
       None (Ok tt)].
Proof.
  split; [intros []|]. split; [reflexivity|].
  assert (Hrun : Fake.track (Fake.calm deadbeef) 1 Fake.start = Return tt afterCalm).
  { unfold Fake.track.
    rewrite (proj2 (proj2 (proj2 (@fresh_remote_file
                             _ (Fake.fakeHost (Fake.calm deadbeef)) 0 Fake.start)))
               (js "/work") []
               deadbeef (js "octocat")
               (js "[2024-01-01T00:00:00Z] deadbeef: Initial commit" ++ [10%N])
               Fake.notFound
               {| Fake.clock := 1; Fake.remote := None;
                  Fake.mirror := None; Fake.stored := None |}
               {| Fake.clock := 2; Fake.remote := None;
                  Fake.mirror := None; Fake.stored := None |}
               {| Fake.clock := 3; Fake.remote := None;
                  Fake.mirror := None; Fake.stored := None |}
               {| Fake.clock := 4; Fake.remote := None;
                  Fake.mirror := None; Fake.stored := None |}
               {| Fake.clock := 5; Fake.remote := None;
                  Fake.mirror :=
                    Some (js "[2024-01-01T00:00:00Z] deadbeef: Initial commit"
                          ++ [10%N]);
                  Fake.stored := None |}
               {| Fake.clock := 6;
                  Fake.remote :=
                    Some (js "[2024-01-01T00:00:00Z] deadbeef: Initial commit"
                          ++ [10%N]);
                  Fake.mirror :=
                    Some (js "[2024-01-01T00:00:00Z] deadbeef: Initial commit"
                          ++ [10%N]);
                  Fake.stored := None |}
               {| Fake.clock := 7;
                  Fake.remote :=
                    Some (js "[2024-01-01T00:00:00Z] deadbeef: Initial commit"
                          ++ [10%N]);
                  Fake.mirror :=
                    Some (js "[2024-01-01T00:00:00Z] deadbeef: Initial commit"
                          ++ [10%N]);
                  Fake.stored := Some [js "deadbeef"] |}).
    - vm_compute; reflexivity.
    - reflexivity.
    - reflexivity.
    - reflexivity.
    - reflexivity.
    - intros [].
    - reflexivity.
    - reflexivity.
    - reflexivity.
    - reflexivity.
    - reflexivity.
    - reflexivity. }
  split; [exact Hrun|]. vm_compute. split; reflexivity.
Defined.

Lemma skip_processed_commit_witness :
  In (hash deadbeef) (processedCommits known) /\
  Fake.track (Fake.calm deadbeef) 1 known =
  Return tt
    {| processedCommits := [js "deadbeef"];
       host := {| Fake.clock := 2; Fake.remote := None;
                  Fake.mirror := None; Fake.stored := None |};
       trace := [CheckIsRepo (js "/work") (Ok true);
                 GitLog (js "/work") (Ok (Some deadbeef))] |}.
Proof.
  split; [now left|].
  apply (@skip_processed_commit
           _ (Fake.fakeHost (Fake.calm deadbeef)) 0 known (js "/work") []
           deadbeef
           {| Fake.clock := 1; Fake.remote := None;
              Fake.mirror := None; Fake.stored := None |}).
  - reflexivity.
  - reflexivity.
  - reflexivity.
  - now left.
Defined.

Lemma load_parses_matching_lines_witness :
  (exists w',
      Fake.load (Fake.calm deadbeef) sampled = Return tt w' /\
      processedCommits w' = [js "abc123"]) /\
  (exists w',
      Fake.load (Fake.calm deadbeef) (holding twoEntries JsSet.empty)
      = Return tt w' /\
      processedCommits w' = [js "abc123"; js "def456"]).
Proof.
  split.
  - destruct (@load_parses_matching_lines
                _ (Fake.fakeHost (Fake.calm deadbeef)) sampled (js "octocat")
                malformedSample (Some (Fake.tagOf malformedSample))
                (idle 1 (Some malformedSample)) (idle 2 (Some malformedSample))
                eq_refl eq_refl)
      as (w' & Hload & _ & _ & _ & Hsample & _).
    exists w'. split; [exact Hload | now apply Hsample].
  - destruct (@load_parses_matching_lines
                _ (Fake.fakeHost (Fake.calm deadbeef))
                (holding twoEntries JsSet.empty) (js "octocat")
                twoEntries (Some (Fake.tagOf twoEntries))
                (idle 1 (Some twoEntries)) (idle 2 (Some twoEntries))
                eq_refl eq_refl)
      as (w' & Hload & _ & _ & _ & _ & _ & _ & _ & _ & _ & Htwo).
    exists w'. split; [exact Hload | now apply Htwo].
Defined.

(** * Further properties *)

(** ** What the loader reads back from what the synchroniser writes *)

(** X1. A line that opens with a bracketed stamp gives the text between the
    ["] "] after the stamp and the next colon, whatever follows that colon:
    the message of an entry has no part in the hash that is read back.  The
    stamp must hold no ["] "] itself, and neither part a line terminator. *)
Theorem hash_read_from_entry_line (stamp h tail : jsstring) :
  hasCloser stamp = false -> plain stamp = true ->
  plain h = true -> colonFree h = true ->
  hashOfLine (js "[" ++ stamp ++ js "] " ++ h ++ js ":" ++ tail) = Some h.
Proof.
  intros Hclose Hs Hh Hcolon.
  apply hashOfLine_value;
    auto using plain_noTerminator, colonFree_spec.
Qed.

Lemma legible_spec (c : LatestCommit) :
  legible c = true ->
  hasCloser (date c) = false /\ plain (date c) = true /\
  plain (hash c) = true /\ colonFree (hash c) = true.
Proof.
  unfold legible. rewrite !andb_true_iff, negb_true_iff. tauto.
Qed.

(** The line of an entry, and the line feed that ends it. *)
Lemma logEntryOf_line (c : LatestCommit) :
  logEntryOf c =
  (js "[" ++ date c ++ js "] " ++ hash c ++ js ":" ++ js " " ++ message c) ++ nl.
Proof.
  unfold logEntryOf. change (js ": ") with (js ":" ++ js " ").
  now rewrite <- !app_assoc.
Qed.

Lemma parseCommits_entry (c : LatestCommit) (rest : jsstring) :
  legible c = true -> oneLine (message c) = true ->
  parseCommits (logEntryOf c ++ rest) = hash c :: parseCommits rest.
Proof.
  intros Hc Hm. apply legible_spec in Hc as (Hclose & Hd & Hh & Hcolon).
  rewrite logEntryOf_line, <- app_assoc, parseCommits_app, parseCommits_line.
  - rewrite hashOfLine_value;
      auto using plain_noTerminator, colonFree_spec.
  - rewrite !in_app_iff.
    pose proof (plain_oneLine _ Hd). pose proof (plain_oneLine _ Hh).
    pose proof (oneLine_spec _ Hm).
    intros [Hin | [Hin | [Hin | [Hin | [Hin | [Hin | Hin]]]]]]; try contradiction;
      vm_compute in Hin; intuition discriminate.
Qed.

(** X2. Appending the entry of a commit to a log appends its hash to what
    the loader parses from the log: the log may hold any lines, as long as
    it is empty or ends with a line feed, and the commit must be legible and
    its message one line. *)
Theorem entry_read_back (base : jsstring) (c : LatestCommit) :
  legible c = true -> oneLine (message c) = true ->
  (base = [] \/ exists b, base = b ++ nl) ->
  parseCommits (base ++ logEntryOf c) = parseCommits base ++ [hash c].
Proof.
  intros Hc Hm [-> | [b ->]].
  - cbn [app]. rewrite <- (app_nil_r (logEntryOf c)).
    now rewrite (@parseCommits_entry c [] Hc Hm).
  - rewrite <- app_assoc, parseCommits_app, parseCommits_closed.
    rewrite <- (app_nil_r (logEntryOf c)).
    now rewrite (@parseCommits_entry c [] Hc Hm).
Qed.

(** X3. Round trip: from a log made of the entries of legible commits with
    one-line messages, the loader parses exactly their hashes, in the
    order of the entries. *)
Theorem log_round_trip (cs : list LatestCommit) :
  forallb (fun c => legible c && oneLine (message c)) cs = true ->
  parseCommits (List.concat (map logEntryOf cs)) = map hash cs.
Proof.
  induction cs as [|c cs IH]; cbn [forallb map List.concat]; [reflexivity|].
  rewrite !andb_true_iff. intros [[Hc Hm] Hcs].
  now rewrite (@parseCommits_entry c _ Hc Hm), IH.
Qed.

(** X4. The filter on blank lines of line 86 never changes what is parsed:
    a line that [trim] empties has no match. *)
Theorem blank_filter_is_neutral (text : jsstring) :
  parseCommits text = dropNull (map hashOfLine (split LF text)).
Proof.
  unfold parseCommits.
  induction (split LF text) as [|line lines IH]; cbn [filter map dropNull];
    [reflexivity|].
  destruct (truthy (trim line)) eqn:Ht; cbn [map dropNull].
  - now rewrite IH.
  - now rewrite (hashOfLine_blank _ Ht).
Qed.

(** ** After a restart *)

Lemma addAll_known (hs : list jsstring) (s : JsSet.t) :
  (forall h, In h hs -> In h s) -> JsSet.addAll hs s = s.
Proof.
  unfold JsSet.addAll. revert s.
  induction hs as [|h hs IH]; intros s Hs; cbn [fold_left]; [reflexivity|].
  assert (JsSet.add h s = s) as ->.
  { unfold JsSet.add. rewrite (proj2 (has_In h s)); [reflexivity|].
    apply Hs. now left. }
  apply IH. intros x Hx. apply Hs. now right.
Qed.

Lemma split_head (sep : N) (x s : jsstring) :
  ~ In sep x -> exists m ls, split sep (x ++ s) = (x ++ m) :: ls.
Proof.
  induction x as [|c x IH]; intros Hx; cbn [app].
  - pose proof (split_nonempty sep s) as Hne.
    destruct (split sep s) as [|m ls]; [contradiction | now exists m, ls].
  - cbn [split]. destruct (N.eqb_spec c sep) as [-> | _];
      [exfalso; apply Hx; now left|].
    destruct IH as (m & ls & ->); [intros Hin; apply Hx; now right|].
    now exists m, ls.
Qed.

(** The hash of a legible commit is parsed from every log that holds its
    entry at the start of a line, whatever stands before and after. *)
Lemma In_parseCommits_entry (base : jsstring) (c : LatestCommit) (rest : jsstring) :
  legible c = true ->
  (base = [] \/ exists b, base = b ++ nl) ->
  In (hash c) (parseCommits (base ++ logEntryOf c ++ rest)).
Proof.
  intros Hc Hbase. apply legible_spec in Hc as (Hclose & Hd & Hh & Hcolon).
  apply In_parseCommits.
  remember (js "[" ++ date c ++ js "] " ++ hash c ++ js ":") as opening
    eqn:Hopening.
  assert (Hentry : logEntryOf c ++ rest
                   = opening ++ (js " " ++ message c ++ nl ++ rest)).
  { rewrite logEntryOf_line. subst opening. now rewrite <- !app_assoc. }
  destruct (@split_head LF opening (js " " ++ message c ++ nl ++ rest))
    as (m & ls & Hsplit).
  { subst opening. rewrite !in_app_iff.
    pose proof (plain_oneLine _ Hd). pose proof (plain_oneLine _ Hh).
    intros [Hin | [Hin | [Hin | [Hin | Hin]]]]; try contradiction;
      vm_compute in Hin; intuition discriminate. }
  exists (opening ++ m). split.
  - rewrite Hentry.
    destruct Hbase as [-> | [b ->]].
    + cbn [app]. rewrite Hsplit. now left.
    + rewrite <- app_assoc.
      change (split LF (b ++ nl ++ ?x)) with (split LF (b ++ LF :: x)).
      rewrite split_app, Hsplit. apply in_or_app. right. now left.
  - subst opening. rewrite <- !app_assoc.
    apply hashOfLine_value; auto using plain_noTerminator, colonFree_spec.
Qed.

Section Restart.

Context {E : Type} `{Host E}.

(** X9. A second load that fetches the text that the first one fetched
    leaves the ledger as the first one left it, with every hash of the
    text in it. *)
Theorem second_load_adds_nothing
        (w : World E) (user user' text : jsstring) (tag tag' : option jsstring)
        (e1 e2 e3 e4 : E) :
  users_getAuthenticated (host w) = (Ok user, e1) ->
  repos_getContent user e1 = (Ok {| content := Some text; sha := tag |}, e2) ->
  users_getAuthenticated e2 = (Ok user', e3) ->
  repos_getContent user' e3 = (Ok {| content := Some text; sha := tag' |}, e4) ->
  exists w1 w2,
    loadProcessedCommits w = Return tt w1 /\
    loadProcessedCommits w1 = Return tt w2 /\
    (forall h, In h (parseCommits text) -> In h (processedCommits w1)) /\
    processedCommits w2 = processedCommits w1.
Proof.
  intros Hu Hg Hu' Hg'.
  eexists _, _. split; [|split; [|split]].
  - unfold loadProcessedCommits. unfoldM. rewrite Hu. unfoldM. rewrite Hg. unfoldM.
    reflexivity.
  - unfold loadProcessedCommits. unfoldM. rewrite Hu'. unfoldM. rewrite Hg'. unfoldM.
    reflexivity.
  - cbn [processedCommits]. intros h Hh. apply In_addAll. now right.
  - cbn [processedCommits]. apply addAll_known.
    intros h Hh. apply In_addAll. now right.
Qed.

(** X10. After a restart: once a load has fetched a log that holds the
    entry of a legible commit at the start of a line, a run that finds HEAD
    at that commit returns after the two questions to git; it writes
    nothing and shows nothing, and the ledger is as the load left it. *)
Theorem logged_commit_skipped_after_load
        (fuel : nat) (w : World E) (user base rest path : jsstring)
        (tag : option jsstring) (c : LatestCommit) (more : list jsstring)
        (e1 e2 e3 e4 : E) :
  users_getAuthenticated (host w) = (Ok user, e1) ->
  repos_getContent user e1 =
    (Ok {| content := Some (base ++ logEntryOf c ++ rest); sha := tag |}, e2) ->
  (base = [] \/ exists b, base = b ++ nl) ->
  legible c = true ->
  workspace_workspaceFolders e2 = Some (path :: more) ->
  git_checkIsRepo path e2 = (Ok true, e3) ->
  git_log path e3 = (Ok (Some c), e4) ->
  exists w1,
    loadProcessedCommits w = Return tt w1 /\
    In (hash c) (processedCommits w1) /\
    trackGitChange (S fuel) w1 =
    Return tt {| processedCommits := processedCommits w1;
                 host := e4;
                 trace := trace w1 ++ [CheckIsRepo path (Ok true);
                                       GitLog path (Ok (Some c))] |}.
Proof.
  intros Hu Hg Hbase Hc Hf Hr Hl.
  assert (Hin : In (hash c)
                   (JsSet.addAll (parseCommits (base ++ logEntryOf c ++ rest))
                                 (processedCommits w))).
  { apply In_addAll. right. now apply In_parseCommits_entry. }
  eexists. split; [|split].
  - unfold loadProcessedCommits. unfoldM. rewrite Hu. unfoldM. rewrite Hg. unfoldM.
    reflexivity.
  - exact Hin.
  - apply (@known_commit_skipped _ _ fuel _ path more c e3 e4);
      cbn [host processedCommits]; try assumption.
    now apply has_In.
Qed.

End Restart.

(** ** Connection and activation *)

Ltac unfoldA :=
  cbv [invoke bind tryCatch call emit ret throw getProcessed setProcessed
       getHost observe] in *;
  cbn [processedCommits host trace fst snd negb] in *.

Ltac allBut k :=
  match goal with
  | |- exists pre, ?l = _ /\ _ =>
      exists (firstn (List.length l - k) l); cbn [List.length Nat.sub firstn]
  | |- exists pre e, ?l = _ /\ _ =>
      exists (firstn (List.length l - k) l); cbn [List.length Nat.sub firstn]
  end.

Section Activated.

Context {E : Type} `{Host E} `{Editor E}.

(** [initializeGitHub] returns, with one of its two reports. *)
Lemma initialize_returns (w : World E) :
  exists w' new,
    initializeGitHub w = Return tt w' /\
    trace w' = trace w ++ new /\
    extends (processedCommits w) (processedCommits w') /\
    (forall t, In (ShowErrorMessage t) new ->
               t = js "Failed to initialize GitHub connection") /\
    ((exists pre,
         new = pre ++ [connected] /\
         forall t, ~ In (ShowErrorMessage t) pre) \/
     (exists pre e,
         new = pre ++ notConnected e /\
         processedCommits w' = processedCommits w /\
         forall t, ~ In (ShowInformationMessage t) pre)).
Proof.
  unfold initializeGitHub, loadProcessedCommits, connected, notConnected. unfoldA.
  repeat (caseStep; unfoldA).
  all: eexists _, _; (split; [reflexivity|]); cbn [trace processedCommits].
  all: rewrite ?snoc_app.
  all: first [split; [reflexivity|] | split; [symmetry; apply app_nil_r|]].
  all: split; [first [apply extends_refl | apply addAll_extends]|].
  all: split; [intros t Hin; cbn [In] in Hin;
               repeat (destruct Hin as [Hin | Hin]; try discriminate Hin);
               first [contradiction | now injection Hin as <-]|].
  all: first
         [ left; allBut 1; split; [reflexivity|];
           intros t Hin; cbn [In] in Hin;
           repeat (destruct Hin as [Hin | Hin]; try discriminate Hin);
           contradiction
         | right; allBut 2; eexists; split; [reflexivity|];
           split; [reflexivity|];
           intros t Hin; cbn [In] in Hin;
           repeat (destruct Hin as [Hin | Hin]; try discriminate Hin);
           contradiction ].
Qed.


(** X12. The repository is created when, and only when, [repos.get]
    fails, whatever the failure.  With a session, a client and a user: when
    [repos.get] answers, the load starts from the state in which that call
    left the host; when it fails and the creation is accepted, the load
    starts after the creation; in both cases the connection is reported as
    made once the load has returned, whatever the load has met.  When the
    creation fails too, the failure is reported, with the error of the
    creation, and nothing is loaded. *)
Theorem repository_created_when_missing
        (w : World E) (token user : jsstring) (e1 e2 e3 : E) :
  authentication_getSession (host w) = (Ok token, e1) ->
  new_Octokit token e1 = (Ok tt, e2) ->
  users_getAuthenticated e2 = (Ok user, e3) ->
  (forall e4,
      repos_get user e3 = (Ok tt, e4) ->
      exists w5,
        loadProcessedCommits
          {| processedCommits := processedCommits w; host := e4;
             trace := trace w ++ [GetAuthenticated (Ok user)] |}
        = Return tt w5 /\
        initializeGitHub w = Return tt (observe connected w5)) /\
  (forall err e4 e5,
      repos_get user e3 = (Err err, e4) ->
      repos_createForAuthenticatedUser e4 = (Ok tt, e5) ->
      exists w5,
        loadProcessedCommits
          {| processedCommits := processedCommits w; host := e5;
             trace := trace w ++ [GetAuthenticated (Ok user)] |}
        = Return tt w5 /\
        initializeGitHub w = Return tt (observe connected w5)) /\
  (forall err e4 err' e5,
      repos_get user e3 = (Err err, e4) ->
      repos_createForAuthenticatedUser e4 = (Err err', e5) ->
      initializeGitHub w =
      Return tt {| processedCommits := processedCommits w; host := e5;
                   trace := trace w ++ GetAuthenticated (Ok user)
                                    :: notConnected err' |}).
Proof.
  intros Hs Ho Hu. split; [|split].
  - intros e4 Hg.
    destruct (load_returns
                {| processedCommits := processedCommits w; host := e4;
                   trace := trace w ++ [GetAuthenticated (Ok user)] |})
      as (w5 & new & Hl & _).
    exists w5. split; [assumption|].
    unfold initializeGitHub, connected. unfoldA.
    rewrite Hs. unfoldA. rewrite Ho. unfoldA. rewrite Hu. unfoldA.
    rewrite Hg. unfoldA. now rewrite Hl.
  - intros err e4 e5 Hg Hc.
    destruct (load_returns
                {| processedCommits := processedCommits w; host := e5;
                   trace := trace w ++ [GetAuthenticated (Ok user)] |})
      as (w5 & new & Hl & _).
    exists w5. split; [assumption|].
    unfold initializeGitHub, connected. unfoldA.
    rewrite Hs. unfoldA. rewrite Ho. unfoldA. rewrite Hu. unfoldA.
    rewrite Hg. unfoldA. rewrite Hc. unfoldA. now rewrite Hl.
  - intros err e4 err' e5 Hg Hc.
    unfold initializeGitHub, notConnected. unfoldA.
    rewrite Hs. unfoldA. rewrite Ho. unfoldA. rewrite Hu. unfoldA.
    rewrite Hg. unfoldA. rewrite Hc. unfoldA.
    now rewrite !snoc_app.
Qed.

(** X13. [activate] announces 'Trackr initialized successfully!' right
    after its first [initializeGitHub], whatever that call has reported,
    and so does the command 'trackr.start': the message 'Trackr
    initialization failed' of their [catch] is never shown, the only error
    message that an activation can show being 'Failed to initialize GitHub
    connection'.  This holds whether the activation returns or raises. *)
Theorem activation_always_announces_success (w : World E) :
  exists w1 new1,
    initializeGitHub w = Return tt w1 /\
    trace w1 = trace w ++ new1 /\
    (exists w' rest,
        (activate w = Return tt w' \/ exists e, activate w = Throw e w') /\
        trace w' =
          trace w ++ new1 ++
          ShowInformationMessage (js "Trackr initialized successfully!") :: rest /\
        forall t, In (ShowErrorMessage t) (new1 ++ rest) ->
                  t = js "Failed to initialize GitHub connection") /\
    startCommand w =
    Return tt (observe (ShowInformationMessage
                          (js "Trackr initialized successfully !")) w1).
Proof.
  destruct (initialize_returns w) as (w1 & new1 & Hi & Ht & _ & Herr & _).
  exists w1, new1. split; [assumption|]. split; [assumption|]. split.
  - set (P := fun R : Outcome E unit =>
                exists (w' : World E) (rest : list Event),
                  (R = Return tt w' \/ exists e, R = Throw e w') /\
                  trace w' =
                    trace w ++ new1 ++
                    ShowInformationMessage
                      (js "Trackr initialized successfully!") :: rest /\
                  forall t, In (ShowErrorMessage t) (new1 ++ rest) ->
                            t = js "Failed to initialize GitHub connection").
    change (P (activate w)).
    assert (Hthrown :
              forall (e : JsError) (ek : E),
                P (Throw e {| processedCommits := processedCommits w1;
                              host := ek;
                              trace := trace w1 ++
                                [ShowInformationMessage
                                   (js "Trackr initialized successfully!")] |})).
    { intros e ek. eexists _, []. split; [right; eexists; reflexivity|].
      cbn [trace]. rewrite Ht, <- app_assoc. split; [reflexivity|].
      intros t Hin. rewrite app_nil_r in Hin. now apply Herr. }
    unfold activate. unfoldA. rewrite Hi. unfoldA.
    destruct (commands_registerCommand (host w1)) as [[[]|e] ek] eqn:Hr1;
      unfoldA; [|apply Hthrown].
    destruct (subscriptions_push ek) as [[[]|e] ek2] eqn:Hr2;
      unfoldA; [|apply Hthrown].
    destruct (workspace_createFileSystemWatcher ek2) as [[[]|e] ek3] eqn:Hr3;
      unfoldA; [|apply Hthrown].
    destruct (gitWatcher_onDidChange ek3) as [[[]|e] ek4] eqn:Hr4;
      unfoldA; [|apply Hthrown].
    match goal with
    | |- context [initializeGitHub ?wk] =>
        destruct (initialize_returns wk) as (w2 & new2 & Hi2 & Ht2 & _ & Herr2 & _)
    end.
    exists w2, new2. split; [left; exact Hi2|].
    cbn [trace] in Ht2. rewrite Ht2, Ht, <- !app_assoc. split; [reflexivity|].
    intros t Hin. apply in_app_or in Hin as [Hin | Hin]; auto.
  - unfold startCommand. unfoldA. now rewrite Hi.
Qed.

(** X14. The callback of the watcher connects first when no client is
    set, and then runs [trackGitChange] whatever the connection has
    reported; when a client is set it runs [trackGitChange] alone.  It
    never raises. *)
Theorem watcher_connects_then_tracks (fuel : nat) (w : World E) :
  exists w1,
    (if octokit_isSet (host w) then w1 = w
     else initializeGitHub w = Return tt w1) /\
    onDidChange fuel w = trackGitChange fuel w1 /\
    exists w', ends (onDidChange fuel w) w'.
Proof.
  assert (Hends : forall w1, exists w', ends (trackGitChange fuel w1) w').
  { intros w1.
    destruct (run_shapes fuel w1) as (v & w' & n & new & Hv & _).
    exists w'. now apply verdict_ends in Hv. }
  unfold onDidChange. unfoldA.
  destruct (octokit_isSet (host w)); cbn [negb].
  - exists w. split; [reflexivity|]. split; [reflexivity | apply Hends].
  - destruct (initialize_returns w) as (w1 & new1 & Hi & _).
    exists w1. rewrite Hi. split; [reflexivity|].
    split; [reflexivity | apply Hends].
Qed.

(** X18. After its first connection and the announcement, [activate]
    makes its four registrations in turn and then connects once more, so
    that its outcome is that of this second [initializeGitHub]; when a
    registration throws, the activation raises that error at once: what
    comes after is not registered, and there is no second connection. *)
Theorem activation_registers_then_connects (w : World E) :
  exists w1,
    initializeGitHub w = Return tt w1 /\
    let shown :=
      trace w1 ++
      [ShowInformationMessage (js "Trackr initialized successfully!")] in
    (forall e1 e2 e3 e4,
        commands_registerCommand (host w1) = (Ok tt, e1) ->
        subscriptions_push e1 = (Ok tt, e2) ->
        workspace_createFileSystemWatcher e2 = (Ok tt, e3) ->
        gitWatcher_onDidChange e3 = (Ok tt, e4) ->
        activate w =
        initializeGitHub {| processedCommits := processedCommits w1;
                            host := e4; trace := shown |}) /\
    (forall err e1,
        commands_registerCommand (host w1) = (Err err, e1) ->
        activate w =
        Throw err {| processedCommits := processedCommits w1;
                     host := e1; trace := shown |}) /\
    (forall err e1 e2,
        commands_registerCommand (host w1) = (Ok tt, e1) ->
        subscriptions_push e1 = (Err err, e2) ->
        activate w =
        Throw err {| processedCommits := processedCommits w1;
                     host := e2; trace := shown |}) /\
    (forall err e1 e2 e3,
        commands_registerCommand (host w1) = (Ok tt, e1) ->
        subscriptions_push e1 = (Ok tt, e2) ->
        workspace_createFileSystemWatcher e2 = (Err err, e3) ->
        activate w =
        Throw err {| processedCommits := processedCommits w1;
                     host := e3; trace := shown |}) /\
    (forall err e1 e2 e3 e4,
        commands_registerCommand (host w1) = (Ok tt, e1) ->
        subscriptions_push e1 = (Ok tt, e2) ->
        workspace_createFileSystemWatcher e2 = (Ok tt, e3) ->
        gitWatcher_onDidChange e3 = (Err err, e4) ->
        activate w =
        Throw err {| processedCommits := processedCommits w1;
                     host := e4; trace := shown |}).
Proof.
  destruct (initialize_returns w) as (w1 & new1 & Hi & _).
  exists w1. split; [assumption|]. cbv zeta.
  repeat split; intros.
  all: unfold activate; unfoldA; rewrite Hi; unfoldA.
  all: repeat match goal with
         | Hr : ?f = (_, _) |- context [?f] => rewrite Hr; unfoldA
         end.
  all: reflexivity.
Qed.

End Activated.

(** ** Runs against the in-memory store, for every log and commit *)

Lemma eqb_same (a : jsstring) : JsString.eqb a a = true.
Proof. now apply eqb_eq. Qed.

(** The store takes a write that expects the tag of what it holds. *)
Lemma fake_put_current (sc : Fake.Script) (user msg text T : jsstring)
      (f : Fake.State) :
  Fake.fault sc (Fake.clock f) = None ->
  Fake.rival sc (Fake.clock f) = None ->
  Fake.remote f = Some T ->
  @repos_createOrUpdateFileContents _ (Fake.fakeHost sc)
    user msg text (Some (Fake.tagOf T)) f
  = (Ok tt, {| Fake.clock := S (Fake.clock f); Fake.remote := Some text;
               Fake.mirror := Fake.mirror f; Fake.stored := Fake.stored f |}).
Proof.
  intros Hfault Hrival Hr.
  cbn [repos_createOrUpdateFileContents Fake.fakeHost].
  unfold Fake.serve, Fake.putFile, Fake.arrive. rewrite Hfault, Hrival.
  cbn [Fake.remote Fake.clock Fake.mirror Fake.stored]. rewrite Hr.
  cbn [option_map Fake.sameTag]. now rewrite eqb_same.
Qed.

(** ... and refuses one that expects the tag of what it held before another
    writer appended. *)
Lemma fake_put_stale (sc : Fake.Script) (user msg text T x : jsstring)
      (f : Fake.State) :
  Fake.fault sc (Fake.clock f) = None ->
  Fake.rival sc (Fake.clock f) = Some x ->
  x <> [] ->
  Fake.remote f = Some T ->
  @repos_createOrUpdateFileContents _ (Fake.fakeHost sc)
    user msg text (Some (Fake.tagOf T)) f
  = (Err Fake.conflict,
     {| Fake.clock := S (Fake.clock f); Fake.remote := Some (T ++ x);
        Fake.mirror := Fake.mirror f; Fake.stored := Fake.stored f |}).
Proof.
  intros Hfault Hrival Hx Hr.
  cbn [repos_createOrUpdateFileContents Fake.fakeHost].
  unfold Fake.serve, Fake.putFile, Fake.arrive. rewrite Hfault, Hrival.
  cbn [Fake.remote Fake.clock Fake.mirror Fake.stored]. rewrite Hr.
  cbn [option_map Fake.sameTag]. rewrite eqb_neq; [reflexivity|].
  unfold Fake.tagOf. intros Heq. apply app_inv_head in Heq.
  revert Heq. now apply grown_differs.
Qed.

Lemma parseCommits_append_entry (base : jsstring) (c : LatestCommit) :
  legible c = true -> oneLine (message c) = true ->
  (base = [] \/ exists b, base = b ++ nl) ->
  parseCommits (base ++ logEntryOf c) = parseCommits base ++ [hash c].
Proof.
  intros Hc Hm Hbase.
  rewrite <- (app_nil_r (logEntryOf c)).
  destruct Hbase as [-> | [b ->]].
  - cbn [app]. now rewrite (@parseCommits_entry c [] Hc Hm).
  - now rewrite <- app_assoc, parseCommits_app, parseCommits_closed,
      (@parseCommits_entry c [] Hc Hm).
Qed.

Lemma addAll_snoc (hs : list jsstring) (h : jsstring) (s : JsSet.t) :
  JsSet.addAll (hs ++ [h]) s = JsSet.add h (JsSet.addAll hs s).
Proof. unfold JsSet.addAll. now rewrite fold_left_app. Qed.

Lemma add_fresh (h : jsstring) (s : JsSet.t) :
  ~ In h s -> JsSet.add h s = s ++ [h].
Proof.
  intros Hh. unfold JsSet.add. now rewrite (proj2 (has_false h s) Hh).
Qed.

(** X15. Against the in-memory store, for every log and every legible
    commit that the log does not hold: a process that has loaded its ledger
    from the log appends the entry of the commit to the log, and a process
    that starts anew afterwards loads from the store the very ledger that
    the first one has in memory. *)
Theorem restart_rebuilds_ledger (c : LatestCommit) (T : jsstring) (fuel : nat) :
  legible c = true -> oneLine (message c) = true ->
  (T = [] \/ exists b, T = b ++ nl) ->
  ~ In (hash c) (parseCommits T) ->
  exists w' w'',
    Fake.track (Fake.calm c) (S fuel)
      (holding T (JsSet.addAll (parseCommits T) JsSet.empty)) = Return tt w' /\
    Fake.remote (host w') = Some (T ++ logEntryOf c) /\
    Fake.load (Fake.calm c) (reborn w') = Return tt w'' /\
    processedCommits w'' = processedCommits w'.
Proof.
  intros Hc Hm HT Hnew.
  assert (Hout : ~ In (hash c) (JsSet.addAll (parseCommits T) JsSet.empty)).
  { intros Hin. apply In_addAll in Hin as [[] | Hin]. contradiction. }
  eexists _, _. split; [|split; [|split]].
  - unfold Fake.track. rewrite trackGitChange_S.
    erewrite (@attempt_tracked _ (Fake.fakeHost (Fake.calm c))).
    + reflexivity.
    + reflexivity.
    + reflexivity.
    + reflexivity.
    + now apply has_false.
    + reflexivity.
    + reflexivity.
    + exact I.
    + reflexivity.
    + cbn [basis content sha fst snd]. now apply fake_put_current.
    + reflexivity.
  - reflexivity.
  - unfold Fake.load, reborn.
    erewrite (@load_fetched _ (Fake.fakeHost (Fake.calm c)));
      [reflexivity | reflexivity | reflexivity].
  - cbn [processedCommits holding].
    rewrite (@parseCommits_append_entry T c Hc Hm HT), addAll_snoc.
    now apply add_fresh.
Qed.

(** X16. Against the in-memory store, for every log, every commit that the
    ledger does not hold and every text that another writer appends
    between the fetch and the remote write of the first attempt: that
    write is refused and nothing of the other writer is lost; the one
    retry that follows appends the entry after the other writer's text. *)
Theorem rival_append_kept
        (c : LatestCommit) (T x : jsstring) (s : JsSet.t) (fuel : nat) :
  x <> [] -> ~ In (hash c) s ->
  exists w1 w',
    Fake.track (interrupted c x) 1 (holding T s) = OutOfFuel w1 /\
    Fake.remote (host w1) = Some (T ++ x) /\
    processedCommits w1 = s /\
    Fake.track (interrupted c x) (S (S fuel)) (holding T s) = Return tt w' /\
    Fake.remote (host w') = Some (T ++ x ++ logEntryOf c) /\
    processedCommits w' = s ++ [hash c] /\
    count conflictAnswer (trace w') = 1.
Proof.
  intros Hx Hnew. apply has_false in Hnew.
  eassert (H1 : Fake.track (interrupted c x) 1 (holding T s) = OutOfFuel _).
  { unfold Fake.track.
    eapply (@attempt_put_conflict _ (Fake.fakeHost (interrupted c x))).
    - reflexivity.
    - reflexivity.
    - reflexivity.
    - exact Hnew.
    - reflexivity.
    - reflexivity.
    - exact I.
    - reflexivity.
    - cbn [basis content sha fst snd].
      now apply (@fake_put_stale (interrupted c x) _ _ _ T x).
    - reflexivity. }
  eexists _, _. split; [exact H1|]. split; [reflexivity|]. split; [reflexivity|].
  split; [|split; [|split]].
  - unfold Fake.track in *.
    rewrite (trackGitChange_S (S fuel)), H1, (trackGitChange_S fuel).
    erewrite (@attempt_tracked _ (Fake.fakeHost (interrupted c x))).
    + reflexivity.
    + reflexivity.
    + reflexivity.
    + reflexivity.
    + exact Hnew.
    + reflexivity.
    + reflexivity.
    + exact I.
    + reflexivity.
    + cbn [basis content sha fst snd]. now apply fake_put_current.
    + reflexivity.
  - cbn [host Fake.remote]. now rewrite <- app_assoc.
  - reflexivity.
  - reflexivity.
Qed.

(** ** The further theorems at work on the scenarios *)

Lemma hash_read_from_entry_line_witness :
  hashOfLine (js "[2024-01-01T00:00:00Z] deadbeef: Initial commit: [x] y:")
  = Some (js "deadbeef").
Proof.
  apply (@hash_read_from_entry_line
           (js "2024-01-01T00:00:00Z") (js "deadbeef")
           (js " Initial commit: [x] y:"));
    reflexivity.
Defined.

Lemma entry_read_back_witness :
  parseCommits (Fake.earlier ++ logEntryOf deadbeef)
  = [js "0a0a0a0a"; js "deadbeef"].
Proof.
  rewrite (@entry_read_back Fake.earlier deadbeef).
  - reflexivity.
  - reflexivity.
  - reflexivity.
  - right. exists (js "[2023-12-31T09:00:00Z] 0a0a0a0a: Earlier"). reflexivity.
Defined.

Lemma log_round_trip_witness :
  parseCommits (logEntryOf deadbeef ++ logEntryOf second ++ [])
  = [js "deadbeef"; js "cafe0001"].
Proof. apply (@log_round_trip [deadbeef; second]). reflexivity. Defined.

Lemma nothing_to_track_witness :
  Fake.track noFolder 1 Fake.start = Return tt Fake.start /\
  Fake.track notRepo 1 Fake.start =
    Return tt {| processedCommits := []; host := idle 1 None;
                 trace := [CheckIsRepo (js "/work") (Ok false)] |} /\
  Fake.track noCommit 1 Fake.start =
    Return tt {| processedCommits := []; host := idle 2 None;
                 trace := [CheckIsRepo (js "/work") (Ok true);
                           GitLog (js "/work") (Ok None)] |}.
Proof.
  split; [|split].
  - apply (proj1 (@nothing_to_track _ (Fake.fakeHost noFolder) 0 Fake.start)).
    now left.
  - apply (proj1 (proj2 (@nothing_to_track _ (Fake.fakeHost notRepo) 0 Fake.start))
             (js "/work") [] (idle 1 None)); reflexivity.
  - apply (proj2 (proj2 (@nothing_to_track _ (Fake.fakeHost noCommit) 0 Fake.start))
             (js "/work") [] (idle 1 None) (idle 2 None)); reflexivity.
Defined.

Lemma second_load_adds_nothing_witness :
  exists w1 w2,
    Fake.load (Fake.calm deadbeef) sampled = Return tt w1 /\
    Fake.load (Fake.calm deadbeef) w1 = Return tt w2 /\
    (forall h, In h (parseCommits malformedSample) -> In h (processedCommits w1)) /\
    processedCommits w2 = processedCommits w1.
Proof.
  apply (@second_load_adds_nothing
           _ (Fake.fakeHost (Fake.calm deadbeef)) sampled
           (js "octocat") (js "octocat") malformedSample
           (Some (Fake.tagOf malformedSample)) (Some (Fake.tagOf malformedSample))
           (idle 1 (Some malformedSample)) (idle 2 (Some malformedSample))
           (idle 3 (Some malformedSample)) (idle 4 (Some malformedSample)));
    reflexivity.
Defined.

Lemma logged_commit_skipped_after_load_witness :
  exists w1,
    Fake.load (Fake.calm deadbeef) logged = Return tt w1 /\
    In (hash deadbeef) (processedCommits w1) /\
    Fake.track (Fake.calm deadbeef) 1 w1 =
    Return tt
      {| processedCommits := processedCommits w1;
         host := idle 4 (Some (Fake.earlier ++ logEntryOf deadbeef
                               ++ Fake.elsewhere));
         trace := trace w1 ++ [CheckIsRepo (js "/work") (Ok true);
                               GitLog (js "/work") (Ok (Some deadbeef))] |}.
Proof.
  apply (@logged_commit_skipped_after_load
           _ (Fake.fakeHost (Fake.calm deadbeef)) 0 logged
           (js "octocat") Fake.earlier Fake.elsewhere (js "/work")
           (Some (Fake.tagOf (Fake.earlier ++ logEntryOf deadbeef
                              ++ Fake.elsewhere)))
           deadbeef []
           (idle 1 (Some (Fake.earlier ++ logEntryOf deadbeef ++ Fake.elsewhere)))
           (idle 2 (Some (Fake.earlier ++ logEntryOf deadbeef ++ Fake.elsewhere)))
           (idle 3 (Some (Fake.earlier ++ logEntryOf deadbeef ++ Fake.elsewhere)))
           (idle 4 (Some (Fake.earlier ++ logEntryOf deadbeef ++ Fake.elsewhere)))).
  - reflexivity.
  - reflexivity.
  - right. exists (js "[2023-12-31T09:00:00Z] 0a0a0a0a: Earlier"). reflexivity.
  - reflexivity.
  - reflexivity.
  - reflexivity.
  - reflexivity.
Defined.

Lemma restart_rebuilds_ledger_witness :
  exists w' w'',
    Fake.track (Fake.calm deadbeef) 1 (holding Fake.earlier [js "0a0a0a0a"])
    = Return tt w' /\
    Fake.remote (host w') = Some (Fake.earlier ++ logEntryOf deadbeef) /\
    Fake.load (Fake.calm deadbeef) (reborn w') = Return tt w'' /\
    processedCommits w'' = processedCommits w'.
Proof.
  apply (@restart_rebuilds_ledger deadbeef Fake.earlier 0).
  - reflexivity.
  - reflexivity.
  - right. exists (js "[2023-12-31T09:00:00Z] 0a0a0a0a: Earlier"). reflexivity.
  - intros Hin. vm_compute in Hin. destruct Hin as [Hin | []]. discriminate Hin.
Defined.

Lemma rival_append_kept_witness :
  exists w1 w',
    Fake.track (interrupted deadbeef Fake.elsewhere) 1
      (holding Fake.earlier [js "0a0a0a0a"]) = OutOfFuel w1 /\
    Fake.remote (host w1) = Some (Fake.earlier ++ Fake.elsewhere) /\
    processedCommits w1 = [js "0a0a0a0a"] /\
    Fake.track (interrupted deadbeef Fake.elsewhere) 2
      (holding Fake.earlier [js "0a0a0a0a"]) = Return tt w' /\
    Fake.remote (host w')
    = Some (Fake.earlier ++ Fake.elsewhere ++ logEntryOf deadbeef) /\
    processedCommits w' = [js "0a0a0a0a"] ++ [hash deadbeef] /\
    count conflictAnswer (trace w') = 1.
Proof.
  apply (@rival_append_kept deadbeef Fake.earlier Fake.elsewhere
           [js "0a0a0a0a"] 0).
  - intros Hx. vm_compute in Hx. discriminate Hx.
  - intros Hin. vm_compute in Hin. destruct Hin as [Hin | []]. discriminate Hin.
Defined.

(** The account has no repository yet: it is created, and the connection
    is reported as made. *)
Lemma repository_created_when_missing_witness :
  exists w5,
    Desk.initialize (granted deadbeef) (Desk.fresh None false)
    = Return tt (observe connected w5) /\
    Desk.repo (host w5) = true /\
    trace w5 = [GetAuthenticated (Ok (js "octocat"));
                GetAuthenticated (Ok (js "octocat"));
                GetContent (js "octocat") (Err Fake.notFound)].
Proof.
  destruct (proj1 (proj2
              (@repository_created_when_missing
                 _ (Desk.deskHost (granted deadbeef))
                 (Desk.deskEditor (granted deadbeef))
                 (Desk.fresh None false) (js "gho_token") (js "octocat")
                 {| Desk.inner := idle 0 None; Desk.octokit := None;
                    Desk.repo := false; Desk.registered := 0 |}
                 {| Desk.inner := idle 0 None;
                    Desk.octokit := Some (js "gho_token");
                    Desk.repo := false; Desk.registered := 0 |}
                 {| Desk.inner := idle 1 None;
                    Desk.octokit := Some (js "gho_token");
                    Desk.repo := false; Desk.registered := 0 |}
                 eq_refl eq_refl eq_refl))
              Fake.notFound
              {| Desk.inner := idle 1 None;
                 Desk.octokit := Some (js "gho_token");
                 Desk.repo := false; Desk.registered := 0 |}
              {| Desk.inner := idle 1 None;
                 Desk.octokit := Some (js "gho_token");
                 Desk.repo := true; Desk.registered := 0 |}
              eq_refl eq_refl)
    as (w5 & Hload & Hinit).
  exists w5. split; [exact Hinit|].
  vm_compute in Hload. injection Hload as <-. split; reflexivity.
Defined.

(** The user refuses the session: each of the two connections of an
    activation is reported as failed, and the activation announces its
    success in between. *)
Lemma declined_activation :
  exists w',
    Desk.start (declined deadbeef) (Desk.fresh None false) = Return tt w' /\
    trace w' =
      notConnected Desk.refused ++
      [ShowInformationMessage (js "Trackr initialized successfully!")] ++
      notConnected Desk.refused /\
    Desk.registered (host w') = 4 /\
    Desk.octokit (host w') = None.
Proof. eexists. vm_compute. repeat split. Qed.

(** ... and a change under the git directory then connects again, in vain,
    and the run that follows fails on the client that is not there. *)
Lemma declined_change :
  exists w',
    Desk.changed (declined deadbeef) 1 (Desk.fresh None false) = Return tt w' /\
    trace w' =
      notConnected Desk.refused ++
      [CheckIsRepo (js "/work") (Ok true);
       GitLog (js "/work") (Ok (Some deadbeef));
       GetAuthenticated (Err (Desk.typeError (js "users")))] ++
      fatal (Desk.typeError (js "users")).
Proof. eexists. vm_compute. repeat split. Qed.

(** The user grants the session: the activation creates the repository
    and registers its callbacks, and a change under the git directory then
    tracks the commit without connecting again. *)
Lemma granted_session :
  exists w1 w2,
    Desk.start (granted deadbeef) (Desk.fresh None false) = Return tt w1 /\
    Desk.repo (host w1) = true /\
    Desk.registered (host w1) = 4 /\
    Desk.octokit (host w1) = Some (js "gho_token") /\
    Desk.changed (granted deadbeef) 1 w1 = Return tt w2 /\
    Fake.remote (Desk.inner (host w2)) = Some (logEntryOf deadbeef) /\
    processedCommits w2 = [js "deadbeef"] /\
    filter (fun ev => negb (beyondGit ev)) (trace w2) =
      [connected;
       ShowInformationMessage (js "Trackr initialized successfully!");
       connected;
       CheckIsRepo (js "/work") (Ok true);
       GitLog (js "/work") (Ok (Some deadbeef));
       ShowInformationMessage (js "Tracked commit: Initial commit")].
Proof. eexists _, _. vm_compute. repeat split. Qed.
